(** * iepy/models.py: range indexing, chunk building, preprocess state

    A shallow embedding of [iepy/models.py] and the properties of its three
    parts: [interval_offsets] (a double-ended bisection over a sequence
    sorted by a key), [TextChunk.build] (slicing a document and re-basing
    the entity occurrences of the slice) and the preprocess bookkeeping of
    [IEDocument] ([set_preprocess_result], [get_preprocess_result]).

    Python integers are [Z]; sequences are [list]; [//] on a positive
    divisor is [Z.div]; an exception is a value of [exn] carried by
    [result]. The three [while] loops are defined by well-founded recursion
    on the width of the interval still to search, so the functions are
    total. *)

From Stdlib Require Import ZArith Lia Sorted.
From stdpp Require Import base list sorting gmap strings.
From Equations Require Import Equations.

Local Open Scope Z_scope.

(** ** Exceptions and results *)

(** The exceptions the module can raise. [ValueError] carries the message
    of the [raise] statement, which is what tells its uses apart;
    [UnboundLocalError] carries the name of the unbound local. *)
Inductive exn : Type :=
| ValueError (msg : string)
| IndexError
| KeyError
| UnboundLocalError (name : string)
| InvalidPreprocessSteps.

Inductive result (A : Type) : Type :=
| Ok (x : A)
| Raise (e : exn).
Arguments Ok {A} x.
Arguments Raise {A} e.

(** Sequencing: an exception raised by the first statement is the outcome
    of the whole. *)
#[export] Instance result_bind : MBind result := fun A B k r =>
  match r with
  | Ok x => k x
  | Raise e => Raise e
  end.

#[export] Instance result_ret : MRet result := fun A x => Ok x.

(** ** Python sequences *)

(** [a[i]]: a negative index counts from the end; out of range raises. *)
Definition getitem {A} (a : list A) (i : Z) : result A :=
  let n := Z.of_nat (length a) in
  let j := if i <? 0 then i + n else i in
  if (j <? 0) || (n <=? j) then Raise IndexError
  else match a !! Z.to_nat j with
       | Some x => Ok x
       | None => Raise IndexError
       end.

(** The bound of a slice, as Python adjusts it: a negative bound counts
    from the end, and the result is clamped to [0, len]. *)
Definition slice_bound (n i : Z) : Z :=
  if i <? 0 then Z.max (i + n) 0 else Z.min i n.

(** [a[i:j]] *)
Definition slice {A} (a : list A) (i j : Z) : list A :=
  let n := Z.of_nat (length a) in
  let s := slice_bound n i in
  let e := slice_bound n j in
  take (Z.to_nat (e - s)) (drop (Z.to_nat s) a).

(** ** interval_offsets *)

Section IntervalOffsets.
Context {A : Type}.
Variable a : list A.
Variable key : A -> Z.

(** The first loop, which narrows [lo, hi) for both end points at once.
    Its state is [(lo, hi, mid)]; [mid] is unbound until the body has run
    once. The result is the state the loop is left in, by its condition or
    by [break]. *)
Equations? narrow (xl xr lo hi : Z) (mid : option Z)
  : result (Z * Z * option Z) by wf (Z.to_nat (hi - lo)) lt :=
narrow xl xr lo hi mid with Z_lt_dec lo hi := {
  | right _ := Ok (lo, hi, mid)
  | left _ with getitem a ((lo + hi) / 2) := {
    | Raise e := Raise e
    | Ok x :=
        let v := key x in
        if (xl <=? v) && (xr <=? v)
        then narrow xl xr lo ((lo + hi) / 2) (Some ((lo + hi) / 2))
        else if (v <? xl) && (v <? xr)
        then narrow xl xr ((lo + hi) / 2 + 1) hi (Some ((lo + hi) / 2))
        else Ok (lo, hi, Some ((lo + hi) / 2)) } }.
Proof.
  all: Z.div_mod_to_equations; lia.
Qed.

(** The second loop: the left bisection point, the final [llo]. *)
Equations? bisect_xl (xl llo lhi : Z) : result Z
  by wf (Z.to_nat (lhi - llo)) lt :=
bisect_xl xl llo lhi with Z_lt_dec llo lhi := {
  | right _ := Ok llo
  | left _ with getitem a ((llo + lhi) / 2) := {
    | Raise e := Raise e
    | Ok x :=
        if key x <? xl
        then bisect_xl xl ((llo + lhi) / 2 + 1) lhi
        else bisect_xl xl llo ((llo + lhi) / 2) } }.
Proof.
  all: Z.div_mod_to_equations; lia.
Qed.

(** The third loop: the right bisection point, the final [rlo]. *)
Equations? bisect_xr (xr rlo rhi : Z) : result Z
  by wf (Z.to_nat (rhi - rlo)) lt :=
bisect_xr xr rlo rhi with Z_lt_dec rlo rhi := {
  | right _ := Ok rlo
  | left _ with getitem a ((rlo + rhi) / 2) := {
    | Raise e := Raise e
    | Ok x :=
        if xr <=? key x
        then bisect_xr xr rlo ((rlo + rhi) / 2)
        else bisect_xr xr ((rlo + rhi) / 2 + 1) rhi } }.
Proof.
  all: Z.div_mod_to_equations; lia.
Qed.

(** Reading a local that may not have been assigned. *)
Definition local (name : string) (v : option Z) : result Z :=
  match v with
  | Some z => Ok z
  | None => Raise (UnboundLocalError name)
  end.

(** [interval_offsets(a, xl, xr, lo, hi, key)]; [hi = None] is the
    default [len(a)]. The default [key=None] is the call with the
    identity at [A = Z]. *)
Definition interval_offsets (xl xr lo : Z) (hi : option Z) : result (Z * Z) :=
  let hi := match hi with
            | None => Z.of_nat (length a)
            | Some h => h
            end in
  if lo <? 0 then Raise (ValueError "lo must not be negative")
  else if xr <? xl then Raise (ValueError "This function requires xl <= xr ")
  else if lo =? hi then Ok (lo, hi)
  else
    '(lo, hi, mid) ← narrow xl xr lo hi None;
    mid ← local "mid" mid;
    llo ← bisect_xl xl lo mid;
    rlo ← bisect_xr xr mid hi;
    Ok (llo, rlo).

End IntervalOffsets.

(** *** The vocabulary of the specification

    The search runs in the part [L, H) of the sequence [a]. *)

(** The keys do not decrease along [a[L:H]]. *)
Definition sorted_on {A} (a : list A) (key : A -> Z) (L H : Z) : Prop :=
  forall i j x y, L <= i -> i <= j -> j < H ->
    a !! Z.to_nat i = Some x -> a !! Z.to_nat j = Some y -> key x <= key y.

(** Every key of [a[L:l]] is below [x]. *)
Definition below {A} (a : list A) (key : A -> Z) (L x l : Z) : Prop :=
  forall i v, L <= i < l -> a !! Z.to_nat i = Some v -> key v < x.

(** Every key of [a[r:H]] is at least [x]. *)
Definition not_below {A} (a : list A) (key : A -> Z) (H x r : Z) : Prop :=
  forall i v, r <= i < H -> a !! Z.to_nat i = Some v -> x <= key v.

(** The state the first loop ends in: either the interval is empty and
    [mid] is its position or the one before, or [mid] lies in it with a
    key in [xl, xr). *)
Definition narrowed {A} (a : list A) (key : A -> Z) (L xl xr lo hi m : Z)
    : Prop :=
  (lo = hi /\ (m = lo \/ (m = lo - 1 /\ L <= m))) \/
  (lo <= m < hi /\ exists v, a !! Z.to_nat m = Some v /\ xl <= key v < xr).

(** ** Python values

    What a preprocess result may hold. The module is Python 2 code (it
    defines [__unicode__] and tests the list returned by [filter] for
    emptiness), so [filter] yields a list and values of different types
    compare: [None] below every number, numbers below strings. *)
Inductive pyval : Type :=
| PyNone
| PyInt (z : Z)
| PyStr (s : string).

#[export] Instance pyval_eq_dec : EqDecision pyval.
Proof. solve_decision. Defined.

(** [isinstance(x, int)] *)
Definition isinstance_int (x : pyval) : bool :=
  match x with
  | PyInt _ => true
  | _ => false
  end.

(** [x <= y] *)
Definition py_leb (x y : pyval) : bool :=
  match x, y with
  | PyNone, _ => true
  | PyInt _, PyNone => false
  | PyInt a, PyInt b => a <=? b
  | PyInt _, PyStr _ => true
  | PyStr s, PyStr t => String.leb s t
  | PyStr _, _ => false
  end.

(** [sorted(l)]: a stable sort, here by insertion. *)
Fixpoint insort (x : pyval) (l : list pyval) : list pyval :=
  match l with
  | [] => [x]
  | y :: l' => if py_leb x y then x :: y :: l' else y :: insort x l'
  end.

Fixpoint sorted (l : list pyval) : list pyval :=
  match l with
  | [] => []
  | x :: l' => insort x (sorted l')
  end.

(** ** The documents *)

Definition datetime : Type := Z.

Module PreProcessSteps.

Inductive t : Type :=
| tokenization
| segmentation
| tagging
| nerc.

Definition value (step : t) : Z :=
  match step with
  | tokenization => 1
  | segmentation => 2
  | tagging => 3
  | nerc => 4
  end.

Definition name (step : t) : string :=
  match step with
  | tokenization => "tokenization"
  | segmentation => "segmentation"
  | tagging => "tagging"
  | nerc => "nerc"
  end.

End PreProcessSteps.

(** An argument passed where a step is expected: a member of the
    enumeration, or some other value. *)
Inductive pyobj : Type :=
| Step (step : PreProcessSteps.t)
| Other (v : pyval).

Module Entity.

Record t : Type := mk {
  key : string;
  canonical_form : string;
  kind : option string;
}.

End Entity.

Module EntityOccurrence.

Record t : Type := mk {
  entity : Entity.t;
  offset : Z;
  alias : option string;
}.

End EntityOccurrence.

Module EntityInChunk.

Record t : Type := mk {
  key : string;
  canonical_form : string;
  kind : option string;
  offset : Z;
  alias : option string;
}.

End EntityInChunk.

Module IEDocument.

(** The value stored under a step name in [preprocess_metadata]. *)
Record done : Type := mk_done {
  done_at : datetime;
}.

Record t : Type := mk {
  human_identifier : string;
  title : string;
  url : string;
  text : string;
  creation_date : datetime;
  metadata : gmap string pyval;
  preprocess_metadata : gmap string done;
  tokens : list pyval;
  offsets : list Z;
  postags : list pyval;
  sentences : list pyval;
  entities : list EntityOccurrence.t;
}.

(** The attributes the preprocess results are stored in. *)
Inductive field : Type :=
| tokens_field
| sentences_field
| postags_field.

(** [preprocess_fields_mapping.get(step)]; there is no entry for [nerc]. *)
Definition preprocess_fields_mapping (step : PreProcessSteps.t)
    : option field :=
  match step with
  | PreProcessSteps.tokenization => Some tokens_field
  | PreProcessSteps.segmentation => Some sentences_field
  | PreProcessSteps.tagging => Some postags_field
  | PreProcessSteps.nerc => None
  end.

(** [preprocess_fields_mapping[step]] *)
Definition mapping_getitem (step : PreProcessSteps.t) : result field :=
  match preprocess_fields_mapping step with
  | Some f => Ok f
  | None => Raise KeyError
  end.

Definition getattr (self : t) (f : field) : list pyval :=
  match f with
  | tokens_field => tokens self
  | sentences_field => sentences self
  | postags_field => postags self
  end.

Definition setattr (self : t) (f : field) (v : list pyval) : t :=
  match f with
  | tokens_field =>
      mk (human_identifier self) (title self) (url self) (text self)
         (creation_date self) (metadata self) (preprocess_metadata self)
         v (offsets self) (postags self) (sentences self) (entities self)
  | sentences_field =>
      mk (human_identifier self) (title self) (url self) (text self)
         (creation_date self) (metadata self) (preprocess_metadata self)
         (tokens self) (offsets self) (postags self) v (entities self)
  | postags_field =>
      mk (human_identifier self) (title self) (url self) (text self)
         (creation_date self) (metadata self) (preprocess_metadata self)
         (tokens self) (offsets self) v (sentences self) (entities self)
  end.

(** [self.preprocess_metadata[k] = v] *)
Definition set_preprocess_metadata (self : t) (k : string) (v : done) : t :=
  mk (human_identifier self) (title self) (url self) (text self)
     (creation_date self) (metadata self)
     (<[k := v]> (preprocess_metadata self))
     (tokens self) (offsets self) (postags self) (sentences self)
     (entities self).

(** A method that may mutate [self] and may raise: from the document
    before the call to the document after it and the outcome. *)
Definition Py (A : Type) : Type := t -> t * result A.

#[export] Instance Py_ret : MRet Py := fun A x self => (self, Ok x).

#[export] Instance Py_bind : MBind Py := fun A B k m self =>
  match m self with
  | (self', Ok x) => k x self'
  | (self', Raise e) => (self', Raise e)
  end.

Definition raise {A} (e : exn) : Py A := fun self => (self, Raise e).
Definition read {A} (f : t -> A) : Py A := fun self => (self, Ok (f self)).
Definition write (f : t -> t) : Py () := fun self => (f self, Ok ()).
Definition eval {A} (r : result A) : Py A := fun self => (self, r).

Definition was_preprocess_done (self : t) (step : PreProcessSteps.t) : bool :=
  bool_decide (PreProcessSteps.name step ∈ dom (preprocess_metadata self)).

(** [set_preprocess_result(self, step, result)]; [now] is what
    [datetime.now()] returns during the call. The value returned is
    [self], the document as the call leaves it. *)
Definition set_preprocess_result (step : pyobj) (result : list pyval)
    (now : datetime) : Py t :=
  step ← match step with
         | Step s => mret s
         | Other _ => raise InvalidPreprocessSteps
         end;
  _ ← match step with
      | PreProcessSteps.segmentation =>
          if bool_decide (filter (fun x => isinstance_int x = false) result <> [])
          then raise (ValueError "Segmentation result shall only contain ints")
          else if bool_decide (sorted result <> result)
          then raise (ValueError "Segmentation result shall be ordered.")
          else if bool_decide (length (remove_dups result) < length result)%nat
          then raise (ValueError "Segmentation result shall not contain duplicates.")
          else
            first ← eval (getitem result 0);
            if bool_decide (first <> PyInt 0)
            then raise (ValueError "Segmentation result must be offsets of tokens.")
            else
              last ← eval (getitem result (-1));
              toks ← read tokens;
              if bool_decide (last <> PyInt (Z.of_nat (length toks)))
              then raise (ValueError "Segmentation result must be offsets of tokens.")
              else mret ()
      | PreProcessSteps.tagging =>
          toks ← read tokens;
          if bool_decide (length result <> length toks)
          then raise (ValueError "Tagging result must have same cardinality than tokens")
          else mret ()
      | _ => mret ()
      end;
  field_name ← eval (mapping_getitem step);
  _ ← write (fun self => setattr self field_name result);
  _ ← write (fun self =>
         set_preprocess_metadata self (PreProcessSteps.name step) (mk_done now));
  read (fun self => self).

(** [get_preprocess_result(self, step)]; it only reads the document. The
    value is [None] or the list stored in the field. *)
Definition get_preprocess_result (self : t) (step : PreProcessSteps.t)
    : result (option (list pyval)) :=
  if negb (was_preprocess_done self step) then Ok None
  else
    field_name ← mapping_getitem step;
    Ok (Some (getattr self field_name)).

End IEDocument.

Module TextChunk.

Record t : Type := mk {
  document : IEDocument.t;
  text : string;
  offset : Z;
  tokens : list pyval;
  postags : list pyval;
  entities : list EntityInChunk.t;
}.

(** [TextChunk.build(document, token_offset, token_offset_end, text)]; it
    only reads the document. *)
Definition build (document : IEDocument.t) (token_offset token_offset_end : Z)
    (text : string) : result t :=
  let tokens :=
    slice (IEDocument.tokens document) token_offset token_offset_end in
  let postags :=
    slice (IEDocument.postags document) token_offset token_offset_end in
  '(l, r) ← interval_offsets (IEDocument.entities document)
              EntityOccurrence.offset token_offset token_offset_end 0 None;
  let entities :=
    (fun o =>
       EntityInChunk.mk
         (Entity.key (EntityOccurrence.entity o))
         (Entity.canonical_form (EntityOccurrence.entity o))
         (Entity.kind (EntityOccurrence.entity o))
         (EntityOccurrence.offset o - token_offset)
         (EntityOccurrence.alias o))
    <$> slice (IEDocument.entities document) l r in
  Ok (mk document text token_offset tokens postags entities).

End TextChunk.

(** ** The rules for a segmentation result, in the words of the
    specification

    On a document of [n] tokens: every element is an integer, the
    sequence is sorted ascending, no value occurs twice, the first element
    is 0 and the last is [n]. *)
Definition valid_segmentation (n : nat) (result : list pyval) : Prop :=
  exists zs,
    result = PyInt <$> zs /\ Sorted Z.le zs /\ NoDup zs /\
    head zs = Some 0 /\ last zs = Some (Z.of_nat n).

(** The document after a successful [set_preprocess_result]. *)
Definition stored (self : IEDocument.t) (f : IEDocument.field)
    (step : PreProcessSteps.t) (result : list pyval) (now : datetime)
    : IEDocument.t :=
  IEDocument.set_preprocess_metadata (IEDocument.setattr self f result)
    (PreProcessSteps.name step) (IEDocument.mk_done now).

(** What [set_preprocess_result] asks of a result before it stores it, by
    step, on a document of [n] tokens. *)
Definition accepted (step : PreProcessSteps.t) (n : nat) (result : list pyval)
    : Prop :=
  match step with
  | PreProcessSteps.tokenization => True
  | PreProcessSteps.segmentation => valid_segmentation n result
  | PreProcessSteps.tagging => length result = n
  | PreProcessSteps.nerc => False
  end.

(** ** A sample document

    Ten tokens and four occurrences, at the token offsets 2, 5, 5 and 9. *)

Definition sample_occurrence (key : string) (offset : Z) (alias : option string)
    : EntityOccurrence.t :=
  EntityOccurrence.mk (Entity.mk key key (Some "person")) offset alias.

Definition sample_document : IEDocument.t :=
  IEDocument.mk "doc-1" "A title" "http://example.org/1" "some text" 0 ∅ ∅
    (PyStr <$> ["t0"; "t1"; "t2"; "t3"; "t4"; "t5"; "t6"; "t7"; "t8"; "t9"])
    [0; 3; 6; 9; 12; 15; 18; 21; 24; 27]
    (PyStr <$> ["N"; "V"; "N"; "D"; "N"; "N"; "V"; "D"; "A"; "N"])
    []
    [sample_occurrence "ann" 2 None;
     sample_occurrence "bob" 5 (Some "Bobby");
     sample_occurrence "cid" 5 None;
     sample_occurrence "dan" 9 (Some "D.")].

(** The sample document with a completion marker for [nerc] written into
    its [preprocess_metadata]. *)
Definition sample_document_nerc_marked : IEDocument.t :=
  IEDocument.set_preprocess_metadata sample_document "nerc"
    (IEDocument.mk_done 1).

(** ** Properties of [interval_offsets] *)

Lemma getitem_in_range {A} (a : list A) (i : Z) :
  0 <= i < Z.of_nat (length a) ->
  exists x, getitem a i = Ok x /\ a !! Z.to_nat i = Some x.
Proof.
  intros Hi. unfold getitem.
  destruct (Z.ltb_spec i 0) as [?|_]; [lia|].
  destruct (Z.ltb_spec i 0) as [?|_]; [lia|].
  destruct (Z.leb_spec (Z.of_nat (length a)) i) as [?|_]; [lia|]. simpl.
  destruct (lookup_lt_is_Some_2 a (Z.to_nat i)) as [x Hx]; [lia|].
  exists x. by rewrite Hx.
Qed.

Lemma midpoint_bounds (lo hi : Z) : lo < hi -> lo <= (lo + hi) / 2 < hi.
Proof. intros. Z.div_mod_to_equations. lia. Qed.

Section IntervalOffsetsSpec.
Context {A : Type}.
Variable a : list A.
Variable key : A -> Z.

(** The part [L, H) of the sequence in which the search runs. *)
Variables L H : Z.
Hypothesis HL : 0 <= L.
Hypothesis HH : H <= Z.of_nat (length a).

Hypothesis Hsorted : sorted_on a key L H.

Lemma below_step (x m l : Z) (v : A) :
  L <= m < H -> a !! Z.to_nat m = Some v -> key v < x -> l <= m + 1 ->
  below a key L x l.
Proof.
  intros Hm Hv Hlt Hl i w Hi Hw.
  assert (key w <= key v) by (apply (Hsorted i m); auto; lia). lia.
Qed.

Lemma not_below_step (x m r : Z) (v : A) :
  L <= m < H -> a !! Z.to_nat m = Some v -> x <= key v -> m <= r ->
  not_below a key H x r.
Proof.
  intros Hm Hv Hle Hr i w Hi Hw.
  assert (key v <= key w) by (apply (Hsorted m i); auto; lia). lia.
Qed.

Lemma below_weaken (x x' l l' : Z) :
  below a key L x l -> x <= x' -> l' <= l -> below a key L x' l'.
Proof. intros Hb ? ? i v Hi Hv. specialize (Hb i v ltac:(lia) Hv). lia. Qed.

Lemma not_below_weaken (x x' r r' : Z) :
  not_below a key H x r -> x' <= x -> r <= r' -> not_below a key H x' r'.
Proof. intros Hf ? ? i v Hi Hv. specialize (Hf i v ltac:(lia) Hv). lia. Qed.

(** The left bisection: the first index of [llo, lhi] whose key is at
    least [xl]. *)
Lemma bisect_xl_spec (xl llo lhi : Z) :
  L <= llo -> llo <= lhi -> lhi <= H ->
  below a key L xl llo -> not_below a key H xl lhi ->
  exists l, bisect_xl a key xl llo lhi = Ok l /\ llo <= l <= lhi /\
            below a key L xl l /\ not_below a key H xl l.
Proof.
  remember (Z.to_nat (lhi - llo)) as n eqn:Hn.
  revert llo lhi Hn. induction (lt_wf n) as [n _ IH].
  intros llo lhi -> Hlo Hle Hhi Hb Hf.
  rewrite bisect_xl_equation_1.
  destruct (Z_lt_dec llo lhi) as [Hlt|Hge]; simpl.
  - pose proof (midpoint_bounds llo lhi Hlt) as Hm.
    destruct (getitem_in_range a ((llo + lhi) / 2)) as (v & -> & Hv); [lia|].
    simpl. destruct (Z.ltb_spec (key v) xl) as [Hk|Hk].
    + destruct (IH (Z.to_nat (lhi - ((llo + lhi) / 2 + 1))) ltac:(lia)
                  ((llo + lhi) / 2 + 1) lhi eq_refl) as (l & El & Hl & ?);
        try lia; auto.
      { eapply below_step; eauto; lia. }
      exists l. split; [exact El|]. split; [lia|auto].
    + destruct (IH (Z.to_nat ((llo + lhi) / 2 - llo)) ltac:(lia)
                  llo ((llo + lhi) / 2) eq_refl) as (l & El & Hl & ?);
        try lia; auto.
      { eapply not_below_step; eauto; lia. }
      exists l. split; [exact El|]. split; [lia|auto].
  - assert (llo = lhi) as -> by lia.
    exists lhi. repeat split; auto; lia.
Qed.

(** The right bisection: the first index of [rlo, rhi] whose key is at
    least [xr]. *)
Lemma bisect_xr_spec (xr rlo rhi : Z) :
  L <= rlo -> rlo <= rhi -> rhi <= H ->
  below a key L xr rlo -> not_below a key H xr rhi ->
  exists r, bisect_xr a key xr rlo rhi = Ok r /\ rlo <= r <= rhi /\
            below a key L xr r /\ not_below a key H xr r.
Proof.
  remember (Z.to_nat (rhi - rlo)) as n eqn:Hn.
  revert rlo rhi Hn. induction (lt_wf n) as [n _ IH].
  intros rlo rhi -> Hlo Hle Hhi Hb Hf.
  rewrite bisect_xr_equation_1.
  destruct (Z_lt_dec rlo rhi) as [Hlt|Hge]; simpl.
  - pose proof (midpoint_bounds rlo rhi Hlt) as Hm.
    destruct (getitem_in_range a ((rlo + rhi) / 2)) as (v & -> & Hv); [lia|].
    simpl. destruct (Z.leb_spec xr (key v)) as [Hk|Hk].
    + destruct (IH (Z.to_nat ((rlo + rhi) / 2 - rlo)) ltac:(lia)
                  rlo ((rlo + rhi) / 2) eq_refl) as (r & Er & Hr & ?);
        try lia; auto.
      { eapply not_below_step; eauto; lia. }
      exists r. split; [exact Er|]. split; [lia|auto].
    + destruct (IH (Z.to_nat (rhi - ((rlo + rhi) / 2 + 1))) ltac:(lia)
                  ((rlo + rhi) / 2 + 1) rhi eq_refl) as (r & Er & Hr & ?);
        try lia; auto.
      { eapply below_step; eauto; lia. }
      exists r. split; [exact Er|]. split; [lia|auto].
  - assert (rlo = rhi) as -> by lia.
    exists rhi. repeat split; auto; lia.
Qed.

Lemma narrow_spec (xl xr lo hi : Z) (mid : option Z) :
  xl <= xr -> L <= lo -> lo <= hi -> hi <= H ->
  below a key L xl lo -> not_below a key H xr hi ->
  lo < hi \/ mid = Some lo \/ (mid = Some (lo - 1) /\ L <= lo - 1) ->
  exists lo' hi' m,
    narrow a key xl xr lo hi mid = Ok (lo', hi', Some m) /\
    L <= lo' /\ lo' <= hi' /\ hi' <= H /\
    below a key L xl lo' /\ not_below a key H xr hi' /\
    narrowed a key L xl xr lo' hi' m.
Proof.
  intros Hx.
  remember (Z.to_nat (hi - lo)) as n eqn:Hn.
  revert lo hi mid Hn. induction (lt_wf n) as [n _ IH].
  intros lo hi mid -> Hlo Hle Hhi Hb Hf Hmid.
  rewrite narrow_equation_1.
  destruct (Z_lt_dec lo hi) as [Hlt|Hge]; simpl.
  - pose proof (midpoint_bounds lo hi Hlt) as Hm.
    destruct (getitem_in_range a ((lo + hi) / 2)) as (v & -> & Hv); [lia|].
    simpl.
    destruct (Z.leb_spec xl (key v)) as [Hk1|Hk1];
      destruct (Z.leb_spec xr (key v)) as [Hk2|Hk2]; simpl; try lia.
    + apply (IH (Z.to_nat ((lo + hi) / 2 - lo)) ltac:(lia)
                  lo ((lo + hi) / 2) _ eq_refl); try lia; auto.
      * eapply not_below_step; eauto; lia.
      * destruct (Z.eq_dec lo ((lo + hi) / 2)); [right; left|left]; [|lia].
        f_equal; lia.
    + destruct (Z.ltb_spec (key v) xl) as [?|_]; [lia|]. simpl.
      exists lo, hi, ((lo + hi) / 2). repeat split; auto; try lia.
      right. split; [lia|]. exists v. split; [exact Hv|lia].
    + destruct (Z.ltb_spec (key v) xl) as [_|?]; [|lia].
      destruct (Z.ltb_spec (key v) xr) as [_|?]; [|lia]. simpl.
      apply (IH (Z.to_nat (hi - ((lo + hi) / 2 + 1))) ltac:(lia)
                  ((lo + hi) / 2 + 1) hi _ eq_refl); try lia; auto.
      * eapply below_step; eauto; lia.
      * destruct (Z.eq_dec ((lo + hi) / 2 + 1) hi); [right; right|left]; [|lia].
        split; [f_equal|]; lia.
  - assert (lo = hi) as <- by lia.
    destruct Hmid as [?|[->|[-> ?]]]; [lia| |].
    + exists lo, lo, lo. repeat split; auto; try lia. left. auto.
    + exists lo, lo, (lo - 1). repeat split; auto; try lia. left. auto.
Qed.

End IntervalOffsetsSpec.

(** The elements of a slice whose bounds are in range. *)
Lemma slice_lookup {A} (a : list A) (s e : Z) (k : nat) (v : A) :
  0 <= s -> s <= e -> e <= Z.of_nat (length a) ->
  slice a s e !! k = Some v <->
  Z.of_nat k < e - s /\ a !! Z.to_nat (s + Z.of_nat k) = Some v.
Proof.
  intros Hs Hse He. unfold slice, slice_bound.
  destruct (Z.ltb_spec s 0) as [?|_]; [lia|].
  destruct (Z.ltb_spec e 0) as [?|_]; [lia|].
  rewrite !Z.min_l by lia.
  rewrite lookup_take_Some, lookup_drop.
  replace (Z.to_nat s + k)%nat with (Z.to_nat (s + Z.of_nat k)) by lia.
  split; intros [? ?]; split; auto; lia.
Qed.

Lemma slice_Forall {A} (P : A -> Prop) (a : list A) (s e : Z) :
  0 <= s -> s <= e -> e <= Z.of_nat (length a) ->
  (forall i v, s <= i < e -> a !! Z.to_nat i = Some v -> P v) ->
  Forall P (slice a s e).
Proof.
  intros Hs Hse He HP. apply Forall_lookup. intros k v Hk.
  apply slice_lookup in Hk as [Hk Hv]; auto.
  apply (HP (s + Z.of_nat k)); auto. lia.
Qed.

Lemma StronglySorted_lookup {B} (R : B -> B -> Prop) (l : list B) :
  StronglySorted R l ->
  forall i j x y, (i < j)%nat -> l !! i = Some x -> l !! j = Some y -> R x y.
Proof.
  induction 1 as [|z l Hl IH Hz]; intros i j x y Hij Hx Hy.
  - by rewrite lookup_nil in Hx.
  - destruct j as [|j]; [lia|]. simpl in Hy.
    destruct i as [|i]; simpl in Hx.
    + injection Hx as <-. eapply Forall_lookup_1; eauto.
    + apply (IH i j); auto. lia.
Qed.

(** A slice sorted by the key, read through the indices of the sequence. *)
Lemma sorted_slice_sorted_on {A} (a : list A) (key : A -> Z) (lo hi : Z) :
  0 <= lo -> lo <= hi -> hi <= Z.of_nat (length a) ->
  Sorted Z.le (key <$> slice a lo hi) -> sorted_on a key lo hi.
Proof.
  intros Hlo Hle Hhi Hs i j x y Hi Hij Hj Hx Hy.
  destruct (Z.eq_dec i j) as [->|Hne].
  { rewrite Hx in Hy. injection Hy as ->. lia. }
  apply Sorted_StronglySorted in Hs; [|intros ? ? ?; lia].
  apply (StronglySorted_lookup _ _ Hs (Z.to_nat (i - lo)) (Z.to_nat (j - lo)));
    [lia| |].
  - rewrite list_lookup_fmap.
    replace (slice a lo hi !! Z.to_nat (i - lo)) with (Some x); [done|].
    symmetry. apply slice_lookup; auto. split; [lia|].
    by replace (lo + Z.of_nat (Z.to_nat (i - lo))) with i by lia.
  - rewrite list_lookup_fmap.
    replace (slice a lo hi !! Z.to_nat (j - lo)) with (Some y); [done|].
    symmetry. apply slice_lookup; auto. split; [lia|].
    by replace (lo + Z.of_nat (Z.to_nat (j - lo))) with j by lia.
Qed.

(** The result of [interval_offsets] on a sorted range, by indices. *)
Lemma interval_offsets_index {A} (a : list A) (key : A -> Z) (xl xr lo hi : Z) :
  0 <= lo -> lo <= hi -> hi <= Z.of_nat (length a) -> xl <= xr ->
  sorted_on a key lo hi ->
  exists l r,
    interval_offsets a key xl xr lo (Some hi) = Ok (l, r) /\
    lo <= l /\ l <= r /\ r <= hi /\
    below a key lo xl l /\ not_below a key hi xl l /\
    below a key lo xr r /\ not_below a key hi xr r.
Proof.
  intros Hlo Hle Hhi Hx Hs. unfold interval_offsets.
  destruct (Z.ltb_spec lo 0) as [?|_]; [lia|].
  destruct (Z.ltb_spec xr xl) as [?|_]; [lia|].
  assert (Hb0 : forall x, below a key lo x lo) by (intros x i v ?; lia).
  assert (Hf0 : forall x, not_below a key hi x hi) by (intros x i v ?; lia).
  destruct (Z.eqb_spec lo hi) as [->|Hne].
  { exists hi, hi. repeat split; auto; lia. }
  destruct (narrow_spec a key lo hi Hlo Hhi Hs xl xr lo hi None)
    as (lo' & hi' & m & -> & Hlo' & Hle' & Hhi' & Hb & Hf & Hn);
    auto; try lia.
  simpl.
  destruct Hn as [[<- [->|[-> Hm]]]|[Hm (v & Hv & Hk)]].
  - (* the interval closed on [mid] *)
    rewrite bisect_xl_equation_1, bisect_xr_equation_1.
    destruct (Z_lt_dec lo' lo') as [?|?]; [lia|]. simpl.
    exists lo', lo'. repeat split; auto; try lia.
    + eapply not_below_weaken; eauto; lia.
    + eapply below_weaken; eauto; lia.
  - (* the interval closed just after [mid] *)
    rewrite bisect_xl_equation_1.
    destruct (Z_lt_dec lo' (lo' - 1)) as [?|?]; [lia|]. simpl.
    destruct (getitem_in_range a (lo' - 1)) as (v & _ & Hv); [lia|].
    assert (key v < xl) by (apply (Hb (lo' - 1)); auto; lia).
    destruct (bisect_xr_spec a key lo hi Hlo Hhi Hs xr (lo' - 1) lo')
      as (r & -> & Hr & Hbr & Hfr); auto; try lia.
    { eapply below_weaken; eauto; lia. }
    simpl. assert (r = lo') as ->.
    { destruct (Z.eq_dec r lo'); auto.
      assert (xr <= key v) by (apply (Hfr (lo' - 1)); auto; lia). lia. }
    exists lo', lo'. repeat split; auto; try lia.
    eapply not_below_weaken; eauto; lia.
  - (* [mid] has its key in [xl, xr) *)
    destruct (bisect_xl_spec a key lo hi Hlo Hhi Hs xl lo' m)
      as (l & -> & Hl & Hbl & Hfl); auto; try lia.
    { eapply not_below_step; eauto; lia. }
    simpl.
    destruct (bisect_xr_spec a key lo hi Hlo Hhi Hs xr m hi')
      as (r & -> & Hr & Hbr & Hfr); auto; try lia.
    { eapply below_step; eauto; lia. }
    simpl. exists l, r. repeat split; auto; lia.
Qed.

(** *** Without sortedness: the loops stay inside the sequence *)

Lemma getitem_raises {A} (a : list A) (i : Z) (e : exn) :
  getitem a i = Raise e -> e = IndexError.
Proof.
  unfold getitem. destruct (_ || _); [congruence|].
  destruct (a !! _); congruence.
Qed.

Section IntervalOffsetsTotal.
Context {A : Type}.
Variable a : list A.
Variable key : A -> Z.

Lemma bisect_xl_total (xl llo lhi : Z) :
  0 <= llo -> lhi <= Z.of_nat (length a) ->
  exists l, bisect_xl a key xl llo lhi = Ok l.
Proof.
  remember (Z.to_nat (lhi - llo)) as n eqn:Hn.
  revert llo lhi Hn. induction (lt_wf n) as [n _ IH].
  intros llo lhi -> Hlo Hhi. rewrite bisect_xl_equation_1.
  destruct (Z_lt_dec llo lhi) as [Hlt|Hge]; simpl; [|eauto].
  pose proof (midpoint_bounds llo lhi Hlt) as Hm.
  destruct (getitem_in_range a ((llo + lhi) / 2)) as (v & -> & _); [lia|].
  simpl. destruct (key v <? xl).
  - apply (IH (Z.to_nat (lhi - ((llo + lhi) / 2 + 1)))); lia.
  - apply (IH (Z.to_nat ((llo + lhi) / 2 - llo))); lia.
Qed.

Lemma bisect_xr_total (xr rlo rhi : Z) :
  0 <= rlo -> rhi <= Z.of_nat (length a) ->
  exists r, bisect_xr a key xr rlo rhi = Ok r.
Proof.
  remember (Z.to_nat (rhi - rlo)) as n eqn:Hn.
  revert rlo rhi Hn. induction (lt_wf n) as [n _ IH].
  intros rlo rhi -> Hlo Hhi. rewrite bisect_xr_equation_1.
  destruct (Z_lt_dec rlo rhi) as [Hlt|Hge]; simpl; [|eauto].
  pose proof (midpoint_bounds rlo rhi Hlt) as Hm.
  destruct (getitem_in_range a ((rlo + rhi) / 2)) as (v & -> & _); [lia|].
  simpl. destruct (xr <=? key v).
  - apply (IH (Z.to_nat ((rlo + rhi) / 2 - rlo))); lia.
  - apply (IH (Z.to_nat (rhi - ((rlo + rhi) / 2 + 1)))); lia.
Qed.

Lemma narrow_total (xl xr lo hi : Z) (mid : option Z) :
  0 <= lo -> hi <= Z.of_nat (length a) ->
  lo < hi \/ (exists m, mid = Some m /\ 0 <= m <= Z.of_nat (length a)) ->
  exists lo' hi' m,
    narrow a key xl xr lo hi mid = Ok (lo', hi', Some m) /\
    0 <= lo' /\ hi' <= Z.of_nat (length a) /\
    0 <= m <= Z.of_nat (length a).
Proof.
  remember (Z.to_nat (hi - lo)) as n eqn:Hn.
  revert lo hi mid Hn. induction (lt_wf n) as [n _ IH].
  intros lo hi mid -> Hlo Hhi Hmid. rewrite narrow_equation_1.
  destruct (Z_lt_dec lo hi) as [Hlt|Hge]; simpl.
  - pose proof (midpoint_bounds lo hi Hlt) as Hm.
    destruct (getitem_in_range a ((lo + hi) / 2)) as (v & -> & _); [lia|].
    simpl. destruct (_ && _).
    + apply (IH (Z.to_nat ((lo + hi) / 2 - lo))); try lia.
      right. eexists. split; [reflexivity|lia].
    + destruct (_ && _).
      * apply (IH (Z.to_nat (hi - ((lo + hi) / 2 + 1)))); try lia.
        right. eexists. split; [reflexivity|lia].
      * exists lo, hi, ((lo + hi) / 2). repeat split; auto; lia.
  - destruct Hmid as [?|(m & -> & ?)]; [lia|].
    exists lo, hi, m. repeat split; auto; lia.
Qed.

(** The loops raise nothing but the [IndexError] of a subscript. *)
Lemma bisect_xl_raises (xl llo lhi : Z) (e : exn) :
  bisect_xl a key xl llo lhi = Raise e -> e = IndexError.
Proof.
  remember (Z.to_nat (lhi - llo)) as n eqn:Hn.
  revert llo lhi Hn. induction (lt_wf n) as [n _ IH].
  intros llo lhi ->. rewrite bisect_xl_equation_1.
  destruct (Z_lt_dec llo lhi) as [Hlt|Hge]; simpl; [|congruence].
  pose proof (midpoint_bounds llo lhi Hlt) as Hm.
  destruct (getitem a ((llo + lhi) / 2)) as [v|e'] eqn:Hg; simpl.
  - destruct (key v <? xl).
    + apply (IH (Z.to_nat (lhi - ((llo + lhi) / 2 + 1)))); lia.
    + apply (IH (Z.to_nat ((llo + lhi) / 2 - llo))); lia.
  - intros [= <-]. eapply getitem_raises; eauto.
Qed.

Lemma bisect_xr_raises (xr rlo rhi : Z) (e : exn) :
  bisect_xr a key xr rlo rhi = Raise e -> e = IndexError.
Proof.
  remember (Z.to_nat (rhi - rlo)) as n eqn:Hn.
  revert rlo rhi Hn. induction (lt_wf n) as [n _ IH].
  intros rlo rhi ->. rewrite bisect_xr_equation_1.
  destruct (Z_lt_dec rlo rhi) as [Hlt|Hge]; simpl; [|congruence].
  pose proof (midpoint_bounds rlo rhi Hlt) as Hm.
  destruct (getitem a ((rlo + rhi) / 2)) as [v|e'] eqn:Hg; simpl.
  - destruct (xr <=? key v).
    + apply (IH (Z.to_nat ((rlo + rhi) / 2 - rlo))); lia.
    + apply (IH (Z.to_nat (rhi - ((rlo + rhi) / 2 + 1)))); lia.
  - intros [= <-]. eapply getitem_raises; eauto.
Qed.

Lemma narrow_raises (xl xr lo hi : Z) (mid : option Z) (e : exn) :
  narrow a key xl xr lo hi mid = Raise e -> e = IndexError.
Proof.
  remember (Z.to_nat (hi - lo)) as n eqn:Hn.
  revert lo hi mid Hn. induction (lt_wf n) as [n _ IH].
  intros lo hi mid ->. rewrite narrow_equation_1.
  destruct (Z_lt_dec lo hi) as [Hlt|Hge]; simpl; [|congruence].
  pose proof (midpoint_bounds lo hi Hlt) as Hm.
  destruct (getitem a ((lo + hi) / 2)) as [v|e'] eqn:Hg; simpl.
  - destruct (_ && _).
    + apply (IH (Z.to_nat ((lo + hi) / 2 - lo))); lia.
    + destruct (_ && _); [|congruence].
      apply (IH (Z.to_nat (hi - ((lo + hi) / 2 + 1)))); lia.
  - intros [= <-]. eapply getitem_raises; eauto.
Qed.

(** What [interval_offsets] can raise, and when. *)
Lemma interval_offsets_raises (xl xr lo : Z) (hi : option Z) (e : exn) :
  interval_offsets a key xl xr lo hi = Raise e ->
  (lo < 0 /\ e = ValueError "lo must not be negative") \/
  (0 <= lo /\ xr < xl /\ e = ValueError "This function requires xl <= xr ") \/
  (0 <= lo /\ xl <= xr /\ (e = IndexError \/ e = UnboundLocalError "mid")).
Proof.
  unfold interval_offsets.
  destruct (Z.ltb_spec lo 0) as [?|?]; [intros [= <-]; auto|].
  destruct (Z.ltb_spec xr xl) as [?|?]; [intros [= <-]; auto|].
  destruct (_ =? _); [discriminate|].
  intros He. right. right. repeat split; auto.
  destruct (narrow _ _ _ _ _ _ _) as [[[lo' hi'] mid]|e1] eqn:Hn; simpl in He.
  - destruct mid as [m|]; simpl in He; [|injection He as <-; auto].
    destruct (bisect_xl _ _ _ _ _) as [l|e2] eqn:Hl; simpl in He.
    + destruct (bisect_xr _ _ _ _ _) as [r|e3] eqn:Hr; simpl in He;
        [discriminate|].
      injection He as <-. left. eapply bisect_xr_raises; eauto.
    + injection He as <-. left. eapply bisect_xl_raises; eauto.
  - injection He as <-. left. eapply narrow_raises; eauto.
Qed.

(** With the bounds inside the sequence and [xl <= xr], a pair is
    returned whether or not the sequence is sorted. *)
Lemma interval_offsets_total (xl xr lo : Z) (hi : option Z) :
  0 <= lo -> lo <= default (Z.of_nat (length a)) hi ->
  default (Z.of_nat (length a)) hi <= Z.of_nat (length a) -> xl <= xr ->
  exists l r, interval_offsets a key xl xr lo hi = Ok (l, r).
Proof.
  intros Hlo Hle Hhi Hx. unfold interval_offsets.
  change (match hi with Some h => h | None => Z.of_nat (length a) end)
    with (default (Z.of_nat (length a)) hi).
  set (h := default (Z.of_nat (length a)) hi) in *.
  destruct (Z.ltb_spec lo 0) as [?|_]; [lia|].
  destruct (Z.ltb_spec xr xl) as [?|_]; [lia|].
  destruct (Z.eqb_spec lo h) as [?|Hne]; [eauto|].
  destruct (narrow_total xl xr lo h None)
    as (lo' & hi' & m & -> & ? & ? & ?); auto; [lia|].
  simpl.
  destruct (bisect_xl_total xl lo' m) as (l & ->); [lia|lia|].
  simpl.
  destruct (bisect_xr_total xr m hi') as (r & ->); [lia|lia|].
  simpl. eauto.
Qed.

End IntervalOffsetsTotal.

Lemma slice_full {A} (a : list A) : slice a 0 (Z.of_nat (length a)) = a.
Proof.
  unfold slice.
  assert (slice_bound (Z.of_nat (length a)) 0 = 0) as ->
    by (unfold slice_bound; simpl; lia).
  assert (slice_bound (Z.of_nat (length a)) (Z.of_nat (length a))
          = Z.of_nat (length a)) as ->.
  { unfold slice_bound.
    destruct (Z.ltb_spec (Z.of_nat (length a)) 0); lia. }
  rewrite Z.sub_0_r, Nat2Z.id. simpl. by rewrite take_ge.
Qed.

Lemma interval_offsets_default_hi {A} (a : list A) (key : A -> Z)
    (xl xr lo : Z) (hi : option Z) :
  interval_offsets a key xl xr lo hi =
  interval_offsets a key xl xr lo (Some (default (Z.of_nat (length a)) hi)).
Proof. by destruct hi. Qed.

(** ** The claims about [interval_offsets] *)

(** C1 (as amended): for every sequence [a], bounds [0 <= lo <= hi <= len(a)]
    ([hi] the default [len(a)] or supplied by the caller), values
    [xl <= xr] and key function [k] such that [a[lo:hi]] is sorted ascending
    by [k], [interval_offsets] returns a pair [(l, r)] with
    [lo <= l <= r <= hi] such that every element of [a[lo:l]] has key below
    [xl], every element of [a[l:r]] has key in [xl, xr), and every element
    of [a[r:hi]] has key at least [xr]. *)
Theorem interval_offsets_sorted_range {A} (a : list A) (key : A -> Z)
    (xl xr lo : Z) (hi : option Z) :
  0 <= lo ->
  lo <= default (Z.of_nat (length a)) hi ->
  default (Z.of_nat (length a)) hi <= Z.of_nat (length a) ->
  xl <= xr ->
  Sorted Z.le (key <$> slice a lo (default (Z.of_nat (length a)) hi)) ->
  exists l r,
    interval_offsets a key xl xr lo hi = Ok (l, r) /\
    lo <= l /\ l <= r /\ r <= default (Z.of_nat (length a)) hi /\
    Forall (fun v => key v < xl) (slice a lo l) /\
    Forall (fun v => xl <= key v < xr) (slice a l r) /\
    Forall (fun v => xr <= key v)
           (slice a r (default (Z.of_nat (length a)) hi)).
Proof.
  rewrite interval_offsets_default_hi.
  set (h := default (Z.of_nat (length a)) hi).
  intros Hlo Hle Hhi Hx Hs.
  apply sorted_slice_sorted_on in Hs; auto.
  destruct (interval_offsets_index a key xl xr lo h)
    as (l & r & E & Hl & Hlr & Hr & Hbl & Hfl & Hbr & Hfr); auto.
  exists l, r. split; [exact E|]. repeat split; auto.
  - apply slice_Forall; auto; lia.
  - apply slice_Forall; auto; try lia. intros i v Hi Hv. split.
    + apply (Hfl i); auto. lia.
    + apply (Hbr i); auto. lia.
  - apply slice_Forall; auto; lia.
Qed.

Lemma interval_offsets_sorted_range_witness :
  (0 <= 0 /\ 3 <= 9 /\ Sorted Z.le (id <$> slice [2; 5; 5; 9] 0 4)) /\
  exists l r,
    interval_offsets [2; 5; 5; 9] id 3 9 0 None = Ok (l, r) /\
    0 <= l /\ l <= r /\ r <= 4 /\
    Forall (fun v => id v < 3) (slice [2; 5; 5; 9] 0 l) /\
    Forall (fun v => 3 <= id v < 9) (slice [2; 5; 5; 9] l r) /\
    Forall (fun v => 9 <= id v) (slice [2; 5; 5; 9] r 4).
Proof.
  split.
  - repeat split; [lia|lia|]. vm_compute. repeat constructor; discriminate.
  - apply (interval_offsets_sorted_range [2; 5; 5; 9] id 3 9 0 None);
      simpl; try lia.
    vm_compute. repeat constructor; discriminate.
Defined.

(** C1, as stated, fails when the bounds leave the sequence: with
    [lo = 1] beyond the default [hi = len([]) = 0] no loop body runs and the
    read of [mid] raises; with a caller's [hi = 3] beyond [len([5]) = 1] the
    first subscript [a[1]] raises. In both the slice [a[lo:hi]] is sorted. *)
Lemma interval_offsets_out_of_bounds :
  (0 <= 1 /\ 0 <= 0 /\ Sorted Z.le (id <$> slice (@nil Z) 1 0) /\
   interval_offsets (@nil Z) id 0 0 1 None = Raise (UnboundLocalError "mid") /\
   ~ exists l r, interval_offsets (@nil Z) id 0 0 1 None = Ok (l, r)) /\
  (0 <= 0 /\ 0 <= 1 /\ Sorted Z.le (id <$> slice [5] 0 3) /\
   interval_offsets [5] id 0 1 0 (Some 3) = Raise IndexError /\
   ~ exists l r, interval_offsets [5] id 0 1 0 (Some 3) = Ok (l, r)).
Proof.
  split.
  - repeat split; try lia; [constructor|].
    intros (l & r & E). vm_compute in E. discriminate.
  - repeat split; try lia; [vm_compute; repeat constructor|].
    intros (l & r & E). vm_compute in E. discriminate.
Qed.

(** C6: [interval_offsets] returns an empty range on degenerate inputs.
    On arguments that pass its two checks ([lo >= 0], [xl <= xr]), if
    [lo == hi] it returns [(lo, hi)]; in particular on the empty sequence
    with the default bounds it returns [(0, 0)] for any [xl <= xr]; and for
    every sorted sequence [S] and every value [x] the call with
    [xl = xr = x] and the default bounds returns a pair with [l == r]. *)
Theorem interval_offsets_degenerate :
  (forall (A : Type) (a : list A) (key : A -> Z) (xl xr lo : Z) (hi : option Z),
      0 <= lo -> xl <= xr -> lo = default (Z.of_nat (length a)) hi ->
      interval_offsets a key xl xr lo hi =
      Ok (lo, default (Z.of_nat (length a)) hi)) /\
  (forall xl xr : Z,
      xl <= xr -> interval_offsets (@nil Z) id xl xr 0 None = Ok (0, 0)) /\
  (forall (S : list Z) (x : Z),
      Sorted Z.le S ->
      exists l, interval_offsets S id x x 0 None = Ok (l, l)).
Proof.
  split; [|split].
  - intros A a key xl xr lo hi Hlo Hx Hhi.
    rewrite interval_offsets_default_hi. rewrite <- Hhi.
    unfold interval_offsets.
    destruct (Z.ltb_spec lo 0) as [?|_]; [lia|].
    destruct (Z.ltb_spec xr xl) as [?|_]; [lia|].
    by rewrite Z.eqb_refl.
  - intros xl xr Hx. unfold interval_offsets. simpl.
    by destruct (Z.ltb_spec xr xl) as [?|_]; [lia|].
  - intros S x HS.
    rewrite interval_offsets_default_hi. simpl.
    destruct (interval_offsets_index S id x x 0 (Z.of_nat (length S)))
      as (l & r & E & Hl & Hlr & Hr & _ & Hfl & Hbr & _); try lia.
    { apply sorted_slice_sorted_on; try lia.
      by rewrite slice_full, list_fmap_id. }
    destruct (Z.eq_dec l r) as [->|Hne]; [eauto|].
    destruct (lookup_lt_is_Some_2 S (Z.to_nat l)) as [v Hv]; [lia|].
    assert (x <= id v) by (apply (Hfl l); auto; lia).
    assert (id v < x) by (apply (Hbr l); auto; lia).
    lia.
Qed.

Lemma interval_offsets_degenerate_witness :
  interval_offsets [2; 5; 5; 9] id 3 7 4 None = Ok (4, 4) /\
  interval_offsets (@nil Z) id 3 9 0 None = Ok (0, 0) /\
  exists l, interval_offsets [2; 5; 5; 9] id 5 5 0 None = Ok (l, l).
Proof.
  destruct interval_offsets_degenerate as (H1 & H2 & H3).
  split; [|split].
  - apply (H1 Z [2; 5; 5; 9] id 3 7 4 None); simpl; lia.
  - apply H2. lia.
  - apply H3. repeat constructor; discriminate.
Defined.

(** C7 (as amended): [interval_offsets] raises the "lo must not be
    negative" error if and only if [lo < 0], and (given [lo >= 0]) raises
    the "requires xl <= xr" error if and only if [xl > xr]; in both cases
    the outcome is the error, not a pair; and for
    [0 <= lo <= hi <= len(a)] and [xl <= xr] it never raises. *)
Theorem interval_offsets_errors {A} (a : list A) (key : A -> Z)
    (xl xr lo : Z) (hi : option Z) :
  (interval_offsets a key xl xr lo hi
     = Raise (ValueError "lo must not be negative") <-> lo < 0) /\
  (0 <= lo ->
   (interval_offsets a key xl xr lo hi
      = Raise (ValueError "This function requires xl <= xr ") <-> xr < xl)) /\
  (0 <= lo ->
   lo <= default (Z.of_nat (length a)) hi ->
   default (Z.of_nat (length a)) hi <= Z.of_nat (length a) ->
   xl <= xr ->
   exists l r, interval_offsets a key xl xr lo hi = Ok (l, r)).
Proof.
  split; [|split].
  - split.
    + intros E. apply interval_offsets_raises in E.
      destruct E as [[? _]|[(_ & _ & E)|(_ & _ & [E|E])]];
        [done|discriminate..].
    + intros Hlo. unfold interval_offsets.
      by destruct (Z.ltb_spec lo 0) as [_|?]; [|lia].
  - intros Hlo. split.
    + intros E. apply interval_offsets_raises in E.
      destruct E as [[? _]|[(_ & ? & _)|(_ & _ & [E|E])]];
        [lia|done|discriminate..].
    + intros Hx. unfold interval_offsets.
      destruct (Z.ltb_spec lo 0) as [?|_]; [lia|].
      by destruct (Z.ltb_spec xr xl) as [_|?]; [|lia].
  - apply interval_offsets_total.
Qed.

Lemma interval_offsets_errors_witness :
  (interval_offsets [2; 5; 5; 9] id 9 3 0 None
     = Raise (ValueError "This function requires xl <= xr ") <-> 3 < 9) /\
  exists l r, interval_offsets [9; 2; 5] id 3 9 0 None = Ok (l, r).
Proof.
  split.
  - apply (interval_offsets_errors [2; 5; 5; 9] id 9 3 0 None). lia.
  - apply (interval_offsets_errors [9; 2; 5] id 3 9 0 None); simpl; lia.
Defined.

(** C7, as stated, fails in its last part: with [lo = 1 >= 0] and
    [xl = 0 <= xr = 0] on the empty sequence (default [hi = 0]) the call
    raises, the local [mid] being read before any assignment. *)
Lemma interval_offsets_raises_unbound_mid :
  0 <= 1 /\ 0 <= 0 /\
  interval_offsets (@nil Z) id 0 0 1 None = Raise (UnboundLocalError "mid") /\
  ~ exists l r, interval_offsets (@nil Z) id 0 0 1 None = Ok (l, r).
Proof.
  repeat split; try lia.
  intros (l & r & E). vm_compute in E. discriminate.
Qed.

(** ** The claims about [TextChunk.build] *)

Lemma slice_bound_in_range (n i : Z) : 0 <= i -> i <= n -> slice_bound n i = i.
Proof.
  intros. unfold slice_bound. destruct (Z.ltb_spec i 0); lia.
Qed.

Lemma slice_split {A} (a : list A) (s m e : Z) :
  0 <= s -> s <= m -> m <= e -> e <= Z.of_nat (length a) ->
  slice a s e = slice a s m ++ slice a m e.
Proof.
  intros Hs Hsm Hme He. unfold slice.
  rewrite !slice_bound_in_range by lia.
  replace (Z.to_nat (e - s)) with (Z.to_nat (m - s) + Z.to_nat (e - m))%nat
    by lia.
  rewrite <- take_take_drop, drop_drop.
  by replace (Z.to_nat s + Z.to_nat (m - s))%nat with (Z.to_nat m) by lia.
Qed.

Lemma filter_all {A} (P : A -> Prop) `{!forall x, Decision (P x)} (l : list A) :
  Forall P l -> filter P l = l.
Proof.
  induction 1 as [|x l Hx _ IH]; [done|].
  by rewrite filter_cons_True, IH.
Qed.

Lemma filter_none {A} (P : A -> Prop) `{!forall x, Decision (P x)}
    (l : list A) :
  Forall (fun x => ~ P x) l -> filter P l = [].
Proof.
  induction 1 as [|x l Hx _ IH]; [done|].
  by rewrite filter_cons_False, IH.
Qed.

(** In a sequence sorted by the key, the slice between the two offsets is
    the elements with key in [xl, xr), in their order. *)
Lemma interval_offsets_filter {A} (a : list A) (key : A -> Z) (xl xr : Z) :
  xl <= xr -> Sorted Z.le (key <$> a) ->
  exists l r,
    interval_offsets a key xl xr 0 None = Ok (l, r) /\
    slice a l r = filter (fun v => xl <= key v < xr) a.
Proof.
  intros Hx Hs. rewrite interval_offsets_default_hi. simpl.
  destruct (interval_offsets_index a key xl xr 0 (Z.of_nat (length a)))
    as (l & r & E & Hl & Hlr & Hr & Hbl & Hfl & Hbr & Hfr); try lia.
  { apply sorted_slice_sorted_on; try lia. by rewrite slice_full. }
  exists l, r. split; [exact E|].
  rewrite <- (slice_full a) at 2.
  rewrite (slice_split a 0 l (Z.of_nat (length a))) by lia.
  rewrite (slice_split a l r (Z.of_nat (length a))) by lia.
  rewrite !filter_app.
  rewrite (filter_none _ (slice a 0 l)), (filter_all _ (slice a l r)),
    (filter_none _ (slice a r _)).
  - by rewrite app_nil_r.
  - apply slice_Forall; try lia. intros i v Hi Hv.
    specialize (Hfr i v Hi Hv). lia.
  - apply slice_Forall; try lia. intros i v Hi Hv. split.
    + apply (Hfl i); auto. lia.
    + apply (Hbr i); auto. lia.
  - apply slice_Forall; try lia. intros i v Hi Hv.
    specialize (Hbl i v Hi Hv). lia.
Qed.

(** C2: for every document whose entity-occurrence list is sorted
    ascending by offset and every range
    [0 <= token_offset <= token_offset_end <= len(document.tokens)],
    [build] returns a chunk whose tokens and postags are the slices
    [document.tokens[token_offset:token_offset_end]] and
    [document.postags[token_offset:token_offset_end]], whose entities are,
    in the same order, the projections of exactly the occurrences with
    offset in [token_offset, token_offset_end), each with offset
    [occurrence.offset - token_offset] (so in
    [0, token_offset_end - token_offset)) and the alias unchanged; the
    document the chunk refers to is the document given, as it was. *)
Theorem build_projects_range (document : IEDocument.t)
    (token_offset token_offset_end : Z) (text : string) :
  Sorted Z.le (EntityOccurrence.offset <$> IEDocument.entities document) ->
  0 <= token_offset ->
  token_offset <= token_offset_end ->
  token_offset_end <= Z.of_nat (length (IEDocument.tokens document)) ->
  exists chunk,
    TextChunk.build document token_offset token_offset_end text = Ok chunk /\
    TextChunk.tokens chunk
      = slice (IEDocument.tokens document) token_offset token_offset_end /\
    length (TextChunk.tokens chunk)
      = Z.to_nat (token_offset_end - token_offset) /\
    TextChunk.postags chunk
      = slice (IEDocument.postags document) token_offset token_offset_end /\
    Forall2
      (fun e o =>
         EntityInChunk.key e = Entity.key (EntityOccurrence.entity o) /\
         EntityInChunk.canonical_form e
           = Entity.canonical_form (EntityOccurrence.entity o) /\
         EntityInChunk.kind e = Entity.kind (EntityOccurrence.entity o) /\
         EntityInChunk.offset e = EntityOccurrence.offset o - token_offset /\
         EntityInChunk.alias e = EntityOccurrence.alias o)
      (TextChunk.entities chunk)
      (filter
         (fun o => token_offset <= EntityOccurrence.offset o < token_offset_end)
         (IEDocument.entities document)) /\
    Forall
      (fun e => 0 <= EntityInChunk.offset e < token_offset_end - token_offset)
      (TextChunk.entities chunk) /\
    TextChunk.document chunk = document /\
    TextChunk.offset chunk = token_offset /\
    TextChunk.text chunk = text.
Proof.
  intros Hs Hlo Hle Hhi.
  destruct (interval_offsets_filter (IEDocument.entities document)
              EntityOccurrence.offset token_offset token_offset_end)
    as (l & r & E & Hf); auto.
  unfold TextChunk.build. rewrite E. simpl. rewrite Hf.
  eexists. split; [reflexivity|]. simpl. repeat split.
  - unfold slice. rewrite !slice_bound_in_range by lia.
    rewrite length_take, length_drop. lia.
  - apply Forall2_fmap_l, Forall_Forall2_diag, Forall_forall. done.
  - apply Forall_fmap, Forall_forall. intros o Ho. simpl.
    apply list_elem_of_filter in Ho as [? _]. lia.
Qed.

Lemma build_projects_range_witness :
  exists chunk,
    TextChunk.build sample_document 3 9 "t3 .. t8" = Ok chunk /\
    EntityInChunk.offset <$> TextChunk.entities chunk = [2; 2] /\
    EntityInChunk.alias <$> TextChunk.entities chunk = [Some "Bobby"; None] /\
    TextChunk.document chunk = sample_document.
Proof.
  destruct (build_projects_range sample_document 3 9 "t3 .. t8")
    as (chunk & E & _ & _ & _ & _ & _ & Hd & _).
  - vm_compute. repeat constructor; discriminate.
  - lia.
  - lia.
  - simpl. lia.
  - exists chunk. split; [exact E|].
    vm_compute in E. injection E as <-. repeat split.
Defined.

(** C3 (as amended): [build] fails with the range error of
    [interval_offsets] whenever [token_offset > token_offset_end], and no
    chunk is produced then; a range with
    [token_offset <= token_offset_end] is never rejected, also when it
    reaches outside [0, len(document.tokens)]: the chunk is built from the
    slices as Python clamps them. *)
Theorem build_range_errors (document : IEDocument.t)
    (token_offset token_offset_end : Z) (text : string) :
  (token_offset_end < token_offset ->
   TextChunk.build document token_offset token_offset_end text
     = Raise (ValueError "This function requires xl <= xr ")) /\
  (token_offset <= token_offset_end ->
   exists chunk,
     TextChunk.build document token_offset token_offset_end text = Ok chunk /\
     TextChunk.tokens chunk
       = slice (IEDocument.tokens document) token_offset token_offset_end /\
     TextChunk.postags chunk
       = slice (IEDocument.postags document) token_offset token_offset_end).
Proof.
  split.
  - intros Hx. unfold TextChunk.build, interval_offsets. simpl.
    by destruct (Z.ltb_spec token_offset_end token_offset) as [_|?]; [|lia].
  - intros Hx. unfold TextChunk.build.
    destruct (interval_offsets_total (IEDocument.entities document)
                EntityOccurrence.offset token_offset token_offset_end 0 None)
      as (l & r & ->); simpl; try lia.
    eexists. by split; [reflexivity|].
Qed.

Lemma build_range_errors_witness :
  TextChunk.build sample_document 9 3 "nothing"
    = Raise (ValueError "This function requires xl <= xr ") /\
  exists chunk,
    TextChunk.build sample_document 8 12 "t8 t9" = Ok chunk /\
    TextChunk.tokens chunk = slice (IEDocument.tokens sample_document) 8 12 /\
    TextChunk.postags chunk = slice (IEDocument.postags sample_document) 8 12.
Proof.
  split.
  - apply (build_range_errors sample_document 9 3 "nothing"). lia.
  - apply (build_range_errors sample_document 8 12 "t8 t9"). lia.
Defined.

(** C3, as stated, fails for ranges outside [0, len(document.tokens)]:
    on the sample document of ten tokens the range [8, 12) ends beyond the
    tokens and the range [-2, 3) starts before them, and each call returns
    a chunk, the first with the last two tokens and the occurrence at 9,
    the second with no token and the occurrence at 2. *)
Lemma build_accepts_out_of_bounds :
  (Z.of_nat (length (IEDocument.tokens sample_document)) < 12 /\
   exists chunk,
     TextChunk.build sample_document 8 12 "t8 t9" = Ok chunk /\
     TextChunk.tokens chunk = [PyStr "t8"; PyStr "t9"] /\
     EntityInChunk.offset <$> TextChunk.entities chunk = [1]) /\
  (-2 < 0 /\
   exists chunk,
     TextChunk.build sample_document (-2) 3 "" = Ok chunk /\
     TextChunk.tokens chunk = [] /\
     EntityInChunk.offset <$> TextChunk.entities chunk = [4]).
Proof.
  split; (split; [simpl; lia|]); eexists; (split; [vm_compute; reflexivity|]);
    by split.
Qed.

(** ** The claims about the preprocess results *)

Import IEDocument.

(** Unfolding a method down to the document it yields and its outcome. *)
Ltac run_method :=
  unfold set_preprocess_result, get_preprocess_result, mapping_getitem,
    mbind, mret, Py_bind, Py_ret, result_bind, raise, read, write, eval;
  simpl.

(** C10: [set_preprocess_result] is atomic on failure: whenever the call
    raises, whatever the step argument and the result, the document is left
    as it was, no field replaced and no completion time recorded, since
    every check precedes the first mutation. *)
Theorem set_preprocess_result_atomic (self self' : IEDocument.t) (step : pyobj)
    (result : list pyval) (now : datetime) (e : exn) :
  set_preprocess_result step result now self = (self', Raise e) ->
  self' = self.
Proof.
  run_method. destruct step as [[]|v]; simpl;
    repeat case_bool_decide; simpl;
    repeat (destruct (getitem result _); simpl; repeat case_bool_decide; simpl);
    congruence.
Qed.

Lemma set_preprocess_result_atomic_witness :
  fst (set_preprocess_result (Step PreProcessSteps.segmentation)
         (PyInt <$> [0; 3; 3; 10]) 7 sample_document) = sample_document.
Proof.
  apply (set_preprocess_result_atomic sample_document _
           (Step PreProcessSteps.segmentation) (PyInt <$> [0; 3; 3; 10]) 7
           (ValueError "Segmentation result shall not contain duplicates.")).
  vm_compute. reflexivity.
Defined.

(** C5 (as amended): for every document, calling [set_preprocess_result]
    with the [nerc] step does not succeed: [nerc] has no entry in the
    mapping from steps to fields, so the lookup of its field raises a
    [KeyError] before anything is stored; no field is replaced, no
    completion time is recorded under the name "nerc", and the step is
    reported done after the call exactly if it was before. *)
Theorem set_nerc_result_raises (self : IEDocument.t) (result : list pyval)
    (now : datetime) :
  set_preprocess_result (Step PreProcessSteps.nerc) result now self
    = (self, Raise KeyError) /\
  was_preprocess_done
    (fst (set_preprocess_result (Step PreProcessSteps.nerc) result now self))
    PreProcessSteps.nerc
  = was_preprocess_done self PreProcessSteps.nerc.
Proof. by run_method. Qed.

(** C5, as stated, fails: on the sample document, where no step has been
    run, the call with the [nerc] step raises, returns no document, and
    [nerc] is not reported done afterwards. *)
Lemma set_nerc_result_sample :
  set_preprocess_result (Step PreProcessSteps.nerc) [] 7 sample_document
    = (sample_document, Raise KeyError) /\
  was_preprocess_done
    (fst (set_preprocess_result (Step PreProcessSteps.nerc) [] 7
            sample_document))
    PreProcessSteps.nerc = false.
Proof. split; vm_compute; reflexivity. Qed.

Lemma was_preprocess_done_set (self : IEDocument.t) (step : PreProcessSteps.t)
    (v : done) :
  was_preprocess_done
    (set_preprocess_metadata self (PreProcessSteps.name step) v) step = true.
Proof.
  unfold was_preprocess_done. simpl. apply bool_decide_eq_true.
  rewrite dom_insert_L. set_solver.
Qed.

(** C8: [set_preprocess_result] for the tagging step raises the
    cardinality error if and only if the length of the result differs from
    the length of the token sequence, and raises nothing else; when the
    lengths match, the result is stored in [postags], the completion time
    is recorded under "tagging", the step is reported done, and a
    subsequent [get_preprocess_result] for tagging returns the stored
    list. *)
Theorem set_tagging_result (self : IEDocument.t) (result : list pyval)
    (now : datetime) :
  (length result <> length (tokens self) <->
   set_preprocess_result (Step PreProcessSteps.tagging) result now self
     = (self, Raise (ValueError
                       "Tagging result must have same cardinality than tokens"))) /\
  (forall self' e,
     set_preprocess_result (Step PreProcessSteps.tagging) result now self
       = (self', Raise e) ->
     length result <> length (tokens self)) /\
  (length result = length (tokens self) ->
   exists self',
     set_preprocess_result (Step PreProcessSteps.tagging) result now self
       = (self', Ok self') /\
     postags self' = result /\
     tokens self' = tokens self /\
     sentences self' = sentences self /\
     preprocess_metadata self'
       = <["tagging" := mk_done now]> (preprocess_metadata self) /\
     was_preprocess_done self' PreProcessSteps.tagging = true /\
     get_preprocess_result self' PreProcessSteps.tagging = Ok (Some result)).
Proof.
  split; [|split].
  - run_method. case_bool_decide; simpl; split; try done; congruence.
  - intros self' e. run_method. case_bool_decide; simpl; congruence.
  - intros Hlen. eexists. split.
    { run_method. case_bool_decide; simpl; [done|reflexivity]. }
    repeat split.
    + apply (was_preprocess_done_set (setattr self postags_field result)
               PreProcessSteps.tagging).
    + unfold get_preprocess_result.
      rewrite (was_preprocess_done_set (setattr self postags_field result)
                 PreProcessSteps.tagging).
      reflexivity.
Qed.

Lemma set_tagging_result_witness :
  exists self',
    set_preprocess_result (Step PreProcessSteps.tagging)
      (PyStr <$> ["a"; "b"; "c"; "d"; "e"; "f"; "g"; "h"; "i"; "j"]) 7
      sample_document = (self', Ok self') /\
    get_preprocess_result self' PreProcessSteps.tagging
      = Ok (Some (PyStr <$>
                    ["a"; "b"; "c"; "d"; "e"; "f"; "g"; "h"; "i"; "j"])).
Proof.
  destruct (set_tagging_result sample_document
              (PyStr <$> ["a"; "b"; "c"; "d"; "e"; "f"; "g"; "h"; "i"; "j"]) 7)
    as (_ & _ & H).
  destruct H as (self' & E & _ & _ & _ & _ & _ & G); [reflexivity|].
  exists self'. split; [exact E|exact G].
Defined.

(** C9 (as amended): for every document and each of the steps
    tokenization, segmentation and tagging, [get_preprocess_result] returns
    the current value of the step's field when the name of the step is in
    the completion mapping, and otherwise [None]; it raises nothing for
    these steps. For [nerc] it returns [None] when the name is not in the
    mapping, so for a step that was never run the answer is [None] rather
    than an error. *)
Theorem get_preprocess_result_spec (self : IEDocument.t)
    (step : PreProcessSteps.t) :
  (PreProcessSteps.name step ∉ dom (preprocess_metadata self) ->
   get_preprocess_result self step = Ok None) /\
  (PreProcessSteps.name step ∈ dom (preprocess_metadata self) ->
   match step with
   | PreProcessSteps.tokenization =>
       get_preprocess_result self step = Ok (Some (tokens self))
   | PreProcessSteps.segmentation =>
       get_preprocess_result self step = Ok (Some (sentences self))
   | PreProcessSteps.tagging =>
       get_preprocess_result self step = Ok (Some (postags self))
   | PreProcessSteps.nerc => True
   end) /\
  (step <> PreProcessSteps.nerc ->
   exists v, get_preprocess_result self step = Ok v).
Proof.
  unfold get_preprocess_result, was_preprocess_done, mapping_getitem.
  split; [|split].
  - intros Hn. by rewrite bool_decide_eq_false_2.
  - intros Hd. destruct step; try done; by rewrite bool_decide_eq_true_2.
  - intros Hs. destruct step; try done; case_bool_decide; simpl; eauto.
Qed.

Lemma get_preprocess_result_spec_witness :
  get_preprocess_result sample_document PreProcessSteps.tagging = Ok None /\
  get_preprocess_result sample_document PreProcessSteps.nerc = Ok None /\
  get_preprocess_result sample_document_nerc_marked PreProcessSteps.tagging
    = Ok None /\
  get_preprocess_result
    (stored sample_document tokens_field PreProcessSteps.tokenization
       [PyStr "t0"] 7)
    PreProcessSteps.tokenization
  = Ok (Some [PyStr "t0"]).
Proof.
  split; [|split; [|split]].
  - apply (get_preprocess_result_spec sample_document PreProcessSteps.tagging).
    apply not_elem_of_dom. vm_compute. reflexivity.
  - apply (get_preprocess_result_spec sample_document PreProcessSteps.nerc).
    apply not_elem_of_dom. vm_compute. reflexivity.
  - apply (get_preprocess_result_spec sample_document_nerc_marked
             PreProcessSteps.tagging).
    apply not_elem_of_dom. vm_compute. reflexivity.
  - apply (get_preprocess_result_spec
             (stored sample_document tokens_field PreProcessSteps.tokenization
                [PyStr "t0"] 7)
             PreProcessSteps.tokenization).
    apply elem_of_dom. vm_compute. eexists. reflexivity.
Defined.

(** C9, as stated, fails for [nerc]: on a document whose completion
    mapping holds the name "nerc" the step is reported done, and
    [get_preprocess_result] raises a [KeyError] at the lookup of its field
    instead of returning a value. *)
Lemma get_nerc_result_raises :
  was_preprocess_done sample_document_nerc_marked PreProcessSteps.nerc = true /\
  get_preprocess_result sample_document_nerc_marked PreProcessSteps.nerc
    = Raise KeyError.
Proof. split; vm_compute; reflexivity. Qed.

(** *** The segmentation checks *)

Lemma filter_non_int_nil (l : list pyval) :
  filter (fun x => isinstance_int x = false) l = [] <->
  exists zs, l = PyInt <$> zs.
Proof.
  induction l as [|x l IH].
  - split; [by exists []|done].
  - destruct x as [|z|t].
    + rewrite filter_cons_True by done. split; [done|].
      intros ([|? ?] & ?); done.
    + rewrite filter_cons_False by done. rewrite IH. split.
      * intros (zs & ->). by exists (z :: zs).
      * intros ([|? zs] & E); [done|]. injection E as _ ->. by exists zs.
    + rewrite filter_cons_True by done. split; [done|].
      intros ([|? ?] & ?); done.
Qed.

Lemma insort_HdRel (z : Z) (zs : list Z) :
  HdRel Z.le z zs -> insort (PyInt z) (PyInt <$> zs) = PyInt <$> (z :: zs).
Proof.
  destruct 1 as [|y zs Hy]; [done|]. csimpl.
  by destruct (Z.leb_spec z y); [|lia].
Qed.

Lemma sorted_fixed (zs : list Z) :
  Sorted Z.le zs -> sorted (PyInt <$> zs) = PyInt <$> zs.
Proof.
  induction 1 as [|z zs _ IH Hz]; [done|].
  csimpl. rewrite IH. by apply insort_HdRel.
Qed.

Lemma insort_Sorted (z : Z) (zs : list Z) :
  Sorted Z.le zs ->
  exists zs', insort (PyInt z) (PyInt <$> zs) = PyInt <$> zs' /\
              Sorted Z.le zs' /\
              forall y, y <= z -> HdRel Z.le y zs -> HdRel Z.le y zs'.
Proof.
  induction 1 as [|x zs Hs IH Hx].
  - exists [z]. repeat split; repeat constructor; lia.
  - csimpl. destruct (Z.leb_spec z x) as [Hle|Hlt].
    + exists (z :: x :: zs). repeat split; repeat constructor; auto.
    + destruct IH as (zs' & -> & Hs' & Hhd).
      exists (x :: zs'). repeat split.
      * constructor; [done|]. apply Hhd; [lia|done].
      * intros y _ Hy. constructor. by inversion Hy.
Qed.

Lemma sorted_Sorted (zs : list Z) :
  exists zs', sorted (PyInt <$> zs) = PyInt <$> zs' /\ Sorted Z.le zs'.
Proof.
  induction zs as [|z zs (zs' & IH & Hs)]; [by exists []|].
  csimpl. rewrite IH.
  destruct (insort_Sorted z zs' Hs) as (zs'' & -> & ? & _). eauto.
Qed.

#[local] Instance PyInt_inj : Inj (=) (=) PyInt.
Proof. by intros ? ? [= ->]. Qed.

(** [sorted(result) != result] is false exactly on the sorted lists. *)
Lemma sorted_eq_iff (zs : list Z) :
  sorted (PyInt <$> zs) = PyInt <$> zs <-> Sorted Z.le zs.
Proof.
  split; [|apply sorted_fixed].
  destruct (sorted_Sorted zs) as (zs' & -> & Hs).
  by intros ->%(inj (fmap PyInt)).
Qed.

Lemma length_remove_dups_le {B} `{EqDecision B} (l : list B) :
  (length (remove_dups l) <= length l)%nat.
Proof.
  induction l as [|x l IH]; simpl; [done|].
  destruct (decide_rel elem_of x l); simpl; lia.
Qed.

(** [len(set(result)) < len(result)] is true exactly when a value
    occurs twice. *)
Lemma length_remove_dups_lt {B} `{EqDecision B} (l : list B) :
  (length (remove_dups l) < length l)%nat <-> ~ NoDup l.
Proof.
  induction l as [|x l IH]; simpl.
  - split; [lia|]. intros []. constructor.
  - pose proof (length_remove_dups_le l).
    rewrite NoDup_cons. destruct (decide_rel elem_of x l); simpl.
    + split; [tauto|lia].
    + rewrite <- Nat.succ_lt_mono, IH. tauto.
Qed.

Lemma getitem_first {B} (l : list B) (x : B) :
  head l = Some x -> getitem l 0 = Ok x.
Proof. destruct l; [done|]. intros [= ->]. unfold getitem. simpl. done. Qed.

Lemma getitem_last {B} (l : list B) (x : B) :
  last l = Some x -> getitem l (-1) = Ok x.
Proof.
  intros Hl. rewrite last_lookup in Hl.
  pose proof (lookup_lt_Some _ _ _ Hl) as Hlt.
  unfold getitem.
  destruct (Z.ltb_spec (-1) 0) as [_|?]; [|lia].
  destruct (Z.ltb_spec (-1 + Z.of_nat (length l)) 0) as [?|_]; [lia|].
  destruct (Z.leb_spec (Z.of_nat (length l)) (-1 + Z.of_nat (length l)))
    as [?|_]; [lia|].
  simpl.
  replace (Z.to_nat (-1 + Z.of_nat (length l))) with (pred (length l)) by lia.
  by rewrite Hl.
Qed.

(** The segmentation branch of [set_preprocess_result], statement by
    statement. *)
Lemma set_segmentation_unfold (self : IEDocument.t) (result : list pyval)
    (now : datetime) :
  set_preprocess_result (Step PreProcessSteps.segmentation) result now self =
  if bool_decide (filter (fun x => isinstance_int x = false) result <> [])
  then (self, Raise (ValueError "Segmentation result shall only contain ints"))
  else if bool_decide (sorted result <> result)
  then (self, Raise (ValueError "Segmentation result shall be ordered."))
  else if bool_decide (length (remove_dups result) < length result)%nat
  then (self, Raise (ValueError
                       "Segmentation result shall not contain duplicates."))
  else match getitem result 0 with
       | Raise e => (self, Raise e)
       | Ok first =>
           if bool_decide (first <> PyInt 0)
           then (self, Raise (ValueError
                                "Segmentation result must be offsets of tokens."))
           else match getitem result (-1) with
                | Raise e => (self, Raise e)
                | Ok last =>
                    if bool_decide
                         (last <> PyInt (Z.of_nat (length (tokens self))))
                    then (self, Raise (ValueError
                                "Segmentation result must be offsets of tokens."))
                    else
                      let self' :=
                        stored self sentences_field
                          PreProcessSteps.segmentation result now in
                      (self', Ok self')
                end
       end.
Proof.
  unfold set_preprocess_result, mapping_getitem, mbind, mret, Py_bind,
    Py_ret, raise, read, write, eval, stored.
  cbn beta iota.
  repeat (case_bool_decide; [reflexivity|]).
  destruct (getitem result 0) as [first|e]; [|reflexivity].
  case_bool_decide; [reflexivity|].
  destruct (getitem result (-1)) as [last|e]; [|reflexivity].
  case_bool_decide; reflexivity.
Qed.

(** On a result that is not empty, the segmentation branch accepts exactly
    the results the four rules allow, stores them and records the
    completion; every other result is refused with a [ValueError] and the
    document is left as it was. *)
Lemma set_segmentation_result (self : IEDocument.t) (result : list pyval)
    (now : datetime) :
  result <> [] ->
  (valid_segmentation (length (tokens self)) result ->
   exists self',
     set_preprocess_result (Step PreProcessSteps.segmentation) result now self
       = (self', Ok self') /\
     sentences self' = result /\
     tokens self' = tokens self /\
     preprocess_metadata self'
       = <["segmentation" := mk_done now]> (preprocess_metadata self) /\
     was_preprocess_done self' PreProcessSteps.segmentation = true) /\
  (~ valid_segmentation (length (tokens self)) result ->
   exists msg,
     set_preprocess_result (Step PreProcessSteps.segmentation) result now self
       = (self, Raise (ValueError msg))).
Proof.
  intros Hne. rewrite set_segmentation_unfold.
  destruct (decide (filter (fun x => isinstance_int x = false) result = []))
    as [Hf|Hf].
  2:{ rewrite bool_decide_eq_true_2 by done. split; [|eauto].
      intros (zs & -> & _). destruct Hf. apply filter_non_int_nil. eauto. }
  rewrite bool_decide_eq_false_2 by auto.
  apply filter_non_int_nil in Hf as (zs & ->).
  assert (Hinv : forall zs', PyInt <$> zs = PyInt <$> zs' -> zs' = zs).
  { by intros zs' ->%(inj (fmap PyInt)). }
  destruct (decide (Sorted Z.le zs)) as [Hs|Hs].
  2:{ rewrite bool_decide_eq_true_2 by (by rewrite sorted_eq_iff).
      split; [|eauto]. intros (zs' & ->%Hinv & ? & _). done. }
  rewrite bool_decide_eq_false_2 by (rewrite sorted_fixed; auto).
  destruct (decide (NoDup zs)) as [Hd|Hd].
  2:{ rewrite bool_decide_eq_true_2
        by (by rewrite length_remove_dups_lt, (NoDup_fmap PyInt)).
      split; [|eauto]. intros (zs' & ->%Hinv & _ & ? & _). done. }
  rewrite bool_decide_eq_false_2
    by (by rewrite length_remove_dups_lt, (NoDup_fmap PyInt); auto).
  destruct (head zs) as [z0|] eqn:Hz0; [|by destruct zs].
  destruct (last zs) as [zl|] eqn:Hzl;
    [|by apply last_None in Hzl; subst zs].
  rewrite (getitem_first (PyInt <$> zs) (PyInt z0))
    by (by destruct zs; simplify_eq/=).
  rewrite (getitem_last (PyInt <$> zs) (PyInt zl))
    by (by rewrite fmap_last, Hzl).
  destruct (decide (z0 = 0)) as [->|H0].
  2:{ rewrite bool_decide_eq_true_2 by congruence.
      split; [|eauto]. intros (zs' & ->%Hinv & _ & _ & ? & _). congruence. }
  rewrite bool_decide_eq_false_2 by auto.
  destruct (decide (zl = Z.of_nat (length (tokens self)))) as [->|Hl].
  2:{ rewrite bool_decide_eq_true_2 by congruence.
      split; [|eauto]. intros (zs' & ->%Hinv & _ & _ & _ & ?). congruence. }
  rewrite bool_decide_eq_false_2 by auto.
  split.
  - intros _. eexists. split; [reflexivity|]. repeat split.
    apply (was_preprocess_done_set _ PreProcessSteps.segmentation).
  - intros []. exists zs. auto.
Qed.

(** C4 at the empty result: on every document the segmentation branch,
    given [[]], passes the first three checks and raises an [IndexError] at
    [result[0]], not a [ValueError], although [[]] breaks the rule on the
    end points; the document is left as it was. *)
Theorem set_segmentation_result_empty (self : IEDocument.t) (now : datetime) :
  ~ valid_segmentation (length (tokens self)) [] /\
  set_preprocess_result (Step PreProcessSteps.segmentation) [] now self
    = (self, Raise IndexError).
Proof.
  split.
  - intros ([|? ?] & ? & _ & _ & ? & _); done.
  - reflexivity.
Qed.

(** * Further properties of the module *)

(** ** [interval_offsets] outside its contract *)

Lemma getitem_out_of_range {A} (a : list A) (i : Z) :
  Z.of_nat (length a) <= i -> getitem a i = Raise IndexError.
Proof.
  intros Hi. unfold getitem.
  destruct (Z.ltb_spec i 0) as [?|_]; [lia|].
  destruct (Z.ltb_spec i 0) as [?|_]; [lia|].
  by destruct (Z.leb_spec (Z.of_nat (length a)) i) as [_|?]; [|lia].
Qed.

(** X1: when the two checks pass and [hi] (given or the default [len(a)])
    is below [lo], no loop body runs and the read of [mid] in
    [llo, lhi = lo, mid] raises an [UnboundLocalError], whatever the
    sequence holds. *)
Theorem interval_offsets_lo_beyond_hi {A} (a : list A) (key : A -> Z)
    (xl xr lo : Z) (hi : option Z) :
  0 <= lo -> xl <= xr -> default (Z.of_nat (length a)) hi < lo ->
  interval_offsets a key xl xr lo hi = Raise (UnboundLocalError "mid").
Proof.
  intros Hlo Hx Hhi. rewrite interval_offsets_default_hi.
  set (h := default (Z.of_nat (length a)) hi) in *.
  unfold interval_offsets.
  destruct (Z.ltb_spec lo 0) as [?|_]; [lia|].
  destruct (Z.ltb_spec xr xl) as [?|_]; [lia|].
  destruct (Z.eqb_spec lo h) as [?|_]; [lia|].
  rewrite narrow_equation_1.
  by destruct (Z_lt_dec lo h) as [?|?]; [lia|].
Qed.

Lemma interval_offsets_lo_beyond_hi_witness :
  interval_offsets [2; 5; 5; 9] id 3 9 3 (Some 1)
    = Raise (UnboundLocalError "mid").
Proof.
  apply (interval_offsets_lo_beyond_hi [2; 5; 5; 9] id 3 9 3 (Some 1));
    simpl; lia.
Defined.

(** X2: when the two checks pass and the range starts at or after the end
    of the sequence and is not empty ([len(a) <= lo < hi]), the first
    subscript [a[mid]] raises an [IndexError]. *)
Theorem interval_offsets_beyond_length {A} (a : list A) (key : A -> Z)
    (xl xr lo hi : Z) :
  xl <= xr -> Z.of_nat (length a) <= lo -> lo < hi ->
  interval_offsets a key xl xr lo (Some hi) = Raise IndexError.
Proof.
  intros Hx Hlo Hhi. unfold interval_offsets.
  destruct (Z.ltb_spec lo 0) as [?|_]; [lia|].
  destruct (Z.ltb_spec xr xl) as [?|_]; [lia|].
  destruct (Z.eqb_spec lo hi) as [?|_]; [lia|].
  rewrite narrow_equation_1.
  destruct (Z_lt_dec lo hi) as [Hlt|?]; [|lia]. simpl.
  pose proof (midpoint_bounds lo hi Hlt).
  by rewrite getitem_out_of_range by lia.
Qed.

Lemma interval_offsets_beyond_length_witness :
  interval_offsets [2; 5; 5; 9] id 3 9 4 (Some 6) = Raise IndexError.
Proof.
  apply (interval_offsets_beyond_length [2; 5; 5; 9] id 3 9 4 6); simpl; lia.
Defined.

Section IntervalOffsetsBounds.
Context {A : Type}.
Variable a : list A.
Variable key : A -> Z.

Lemma bisect_xl_bounds (xl llo lhi : Z) :
  0 <= llo -> llo <= lhi -> lhi <= Z.of_nat (length a) ->
  exists l, bisect_xl a key xl llo lhi = Ok l /\ llo <= l <= lhi.
Proof.
  remember (Z.to_nat (lhi - llo)) as n eqn:Hn.
  revert llo lhi Hn. induction (lt_wf n) as [n _ IH].
  intros llo lhi -> Hlo Hle Hhi. rewrite bisect_xl_equation_1.
  destruct (Z_lt_dec llo lhi) as [Hlt|Hge]; simpl.
  2:{ exists llo. split; [done|lia]. }
  pose proof (midpoint_bounds llo lhi Hlt) as Hm.
  destruct (getitem_in_range a ((llo + lhi) / 2)) as (v & -> & _); [lia|].
  simpl. destruct (key v <? xl).
  - destruct (IH (Z.to_nat (lhi - ((llo + lhi) / 2 + 1))) ltac:(lia)
                ((llo + lhi) / 2 + 1) lhi eq_refl) as (l & -> & ?); try lia.
    exists l. split; [done|lia].
  - destruct (IH (Z.to_nat ((llo + lhi) / 2 - llo)) ltac:(lia)
                llo ((llo + lhi) / 2) eq_refl) as (l & -> & ?); try lia.
    exists l. split; [done|lia].
Qed.

Lemma bisect_xr_bounds (xr rlo rhi : Z) :
  0 <= rlo -> rlo <= rhi -> rhi <= Z.of_nat (length a) ->
  exists r, bisect_xr a key xr rlo rhi = Ok r /\ rlo <= r <= rhi.
Proof.
  remember (Z.to_nat (rhi - rlo)) as n eqn:Hn.
  revert rlo rhi Hn. induction (lt_wf n) as [n _ IH].
  intros rlo rhi -> Hlo Hle Hhi. rewrite bisect_xr_equation_1.
  destruct (Z_lt_dec rlo rhi) as [Hlt|Hge]; simpl.
  2:{ exists rlo. split; [done|lia]. }
  pose proof (midpoint_bounds rlo rhi Hlt) as Hm.
  destruct (getitem_in_range a ((rlo + rhi) / 2)) as (v & -> & _); [lia|].
  simpl. destruct (xr <=? key v).
  - destruct (IH (Z.to_nat ((rlo + rhi) / 2 - rlo)) ltac:(lia)
                rlo ((rlo + rhi) / 2) eq_refl) as (r & -> & ?); try lia.
    exists r. split; [done|lia].
  - destruct (IH (Z.to_nat (rhi - ((rlo + rhi) / 2 + 1))) ltac:(lia)
                ((rlo + rhi) / 2 + 1) rhi eq_refl) as (r & -> & ?); try lia.
    exists r. split; [done|lia].
Qed.

(** The first loop on any sequence: where it stops, and that a key the
    loop stepped over to the right is below [xr]. *)
Lemma narrow_bounds (L xl xr lo hi : Z) (mid : option Z) :
  0 <= L -> L <= lo -> lo <= hi -> hi <= Z.of_nat (length a) ->
  lo < hi \/ mid = Some lo \/
    (mid = Some (lo - 1) /\ L <= lo - 1 /\
     exists v, a !! Z.to_nat (lo - 1) = Some v /\ key v < xr) ->
  exists lo' hi' m,
    narrow a key xl xr lo hi mid = Ok (lo', hi', Some m) /\
    L <= lo' /\ lo' <= hi' /\ hi' <= hi /\
    ((lo' = hi' /\ m = lo') \/
     (lo' = hi' /\ m = lo' - 1 /\ L <= m /\
      exists v, a !! Z.to_nat m = Some v /\ key v < xr) \/
     lo' <= m < hi').
Proof.
  intros HL.
  remember (Z.to_nat (hi - lo)) as n eqn:Hn.
  revert lo hi mid Hn. induction (lt_wf n) as [n _ IH].
  intros lo hi mid -> Hlo Hle Hhi Hmid. rewrite narrow_equation_1.
  destruct (Z_lt_dec lo hi) as [Hlt|Hge]; simpl.
  - pose proof (midpoint_bounds lo hi Hlt) as Hm.
    destruct (getitem_in_range a ((lo + hi) / 2)) as (v & -> & Hv); [lia|].
    simpl.
    destruct (Z.leb_spec xl (key v)) as [Hk1|Hk1];
      destruct (Z.leb_spec xr (key v)) as [Hk2|Hk2]; simpl; try lia.
    + destruct (IH (Z.to_nat ((lo + hi) / 2 - lo)) ltac:(lia)
                  lo ((lo + hi) / 2) (Some ((lo + hi) / 2)) eq_refl)
        as (lo' & hi' & m & -> & ? & ? & ? & Hs); try lia.
      { destruct (Z.eq_dec lo ((lo + hi) / 2)); [right; left|left]; [|lia].
        f_equal; lia. }
      exists lo', hi', m. repeat split; auto; lia.
    + destruct (Z.ltb_spec (key v) xl) as [?|_]; [lia|]. simpl.
      exists lo, hi, ((lo + hi) / 2). repeat split; auto; try lia.
    + destruct (Z.ltb_spec (key v) xl) as [_|?]; [|lia].
      destruct (Z.ltb_spec (key v) xr) as [?|_]; [lia|]. simpl.
      exists lo, hi, ((lo + hi) / 2). repeat split; auto; try lia.
    + destruct (Z.ltb_spec (key v) xl) as [_|?]; [|lia].
      destruct (Z.ltb_spec (key v) xr) as [_|?]; [|lia]. simpl.
      destruct (IH (Z.to_nat (hi - ((lo + hi) / 2 + 1))) ltac:(lia)
                  ((lo + hi) / 2 + 1) hi (Some ((lo + hi) / 2)) eq_refl)
        as (lo' & hi' & m & -> & ? & ? & ? & Hs); try lia.
      { destruct (Z.eq_dec ((lo + hi) / 2 + 1) hi); [right; right|left];
          [|lia].
        replace ((lo + hi) / 2 + 1 - 1) with ((lo + hi) / 2) by lia.
        repeat split; [lia|]. eauto. }
      exists lo', hi', m. repeat split; auto; lia.
  - assert (lo = hi) as <- by lia.
    destruct Hmid as [?|[->|(-> & ? & ?)]]; [lia| |].
    + exists lo, lo, lo. repeat split; auto; lia.
    + exists lo, lo, (lo - 1). repeat split; auto; try lia.
      right. left. repeat split; auto.
Qed.

(** The pair returned for bounds inside the sequence, sorted or not. *)
Lemma interval_offsets_ordered (xl xr lo hi : Z) :
  0 <= lo -> lo <= hi -> hi <= Z.of_nat (length a) -> xl <= xr ->
  exists l r,
    interval_offsets a key xl xr lo (Some hi) = Ok (l, r) /\
    lo <= l /\ l <= r /\ r <= hi.
Proof.
  intros Hlo Hle Hhi Hx. unfold interval_offsets.
  destruct (Z.ltb_spec lo 0) as [?|_]; [lia|].
  destruct (Z.ltb_spec xr xl) as [?|_]; [lia|].
  destruct (Z.eqb_spec lo hi) as [->|Hne].
  { exists hi, hi. split; [done|lia]. }
  destruct (narrow_bounds lo xl xr lo hi None)
    as (lo' & hi' & m & -> & ? & ? & ? & Hs); try lia.
  simpl. destruct Hs as [[<- ->]|[(<- & -> & ? & v & Hv & Hk)|Hm]].
  - rewrite bisect_xl_equation_1, bisect_xr_equation_1.
    destruct (Z_lt_dec lo' lo') as [?|?]; [lia|]. simpl.
    exists lo', lo'. split; [done|lia].
  - rewrite bisect_xl_equation_1.
    destruct (Z_lt_dec lo' (lo' - 1)) as [?|?]; [lia|]. simpl.
    rewrite bisect_xr_equation_1.
    destruct (Z_lt_dec (lo' - 1) lo') as [?|?]; [|lia]. simpl.
    replace ((lo' - 1 + lo') / 2) with (lo' - 1)
      by (Z.div_mod_to_equations; lia).
    destruct (getitem_in_range a (lo' - 1)) as (v' & -> & Hv'); [lia|].
    simpl. assert (v' = v) as -> by congruence.
    destruct (Z.leb_spec xr (key v)) as [?|_]; [lia|].
    replace ((lo' - 1 + lo') / 2 + 1) with lo'
      by (Z.div_mod_to_equations; lia).
    rewrite bisect_xr_equation_1.
    destruct (Z_lt_dec lo' lo') as [?|?]; [lia|]. simpl.
    exists lo', lo'. split; [done|lia].
  - destruct (bisect_xl_bounds xl lo' m) as (l & -> & ?); try lia.
    simpl.
    destruct (bisect_xr_bounds xr m hi') as (r & -> & ?); try lia.
    simpl. exists l, r. split; [done|lia].
Qed.

End IntervalOffsetsBounds.

(** X3: for every sequence, sorted or not, with bounds
    [0 <= lo <= hi <= len(a)] and [xl <= xr], [interval_offsets] returns a
    pair [(l, r)] with [lo <= l <= r <= hi]: the slice [a[l:r]] a caller
    takes is always a part of [a[lo:hi]]. *)
Theorem interval_offsets_pair_in_range {A} (a : list A) (key : A -> Z)
    (xl xr lo : Z) (hi : option Z) :
  0 <= lo ->
  lo <= default (Z.of_nat (length a)) hi ->
  default (Z.of_nat (length a)) hi <= Z.of_nat (length a) ->
  xl <= xr ->
  exists l r,
    interval_offsets a key xl xr lo hi = Ok (l, r) /\
    lo <= l /\ l <= r /\ r <= default (Z.of_nat (length a)) hi.
Proof.
  rewrite interval_offsets_default_hi. apply interval_offsets_ordered.
Qed.

Lemma interval_offsets_pair_in_range_witness :
  exists l r,
    interval_offsets [9; 2; 7; 5; 1] id 3 8 1 (Some 4) = Ok (l, r) /\
    1 <= l /\ l <= r /\ r <= 4.
Proof.
  apply (interval_offsets_pair_in_range [9; 2; 7; 5; 1] id 3 8 1 (Some 4));
    simpl; lia.
Defined.

(** ** [interval_offsets] as two counts *)

Lemma length_slice {A} (a : list A) (s e : Z) :
  0 <= s -> s <= e -> e <= Z.of_nat (length a) ->
  length (slice a s e) = Z.to_nat (e - s).
Proof.
  intros. unfold slice. rewrite !slice_bound_in_range by lia.
  rewrite length_take, length_drop. lia.
Qed.

(** On a sorted range the two offsets cut the range at [xl] and at [xr]. *)
Lemma sorted_range_parts {A} (a : list A) (key : A -> Z) (xl xr lo hi : Z) :
  0 <= lo -> lo <= hi -> hi <= Z.of_nat (length a) -> xl <= xr ->
  Sorted Z.le (key <$> slice a lo hi) ->
  exists l r,
    interval_offsets a key xl xr lo (Some hi) = Ok (l, r) /\
    lo <= l /\ l <= r /\ r <= hi /\
    Forall (fun v => key v < xl) (slice a lo l) /\
    Forall (fun v => ~ key v < xl) (slice a l hi) /\
    Forall (fun v => key v < xr) (slice a lo r) /\
    Forall (fun v => ~ key v < xr) (slice a r hi).
Proof.
  intros Hlo Hle Hhi Hx Hs.
  apply sorted_slice_sorted_on in Hs; auto.
  destruct (interval_offsets_index a key xl xr lo hi)
    as (l & r & E & Hl & Hlr & Hr & Hbl & Hfl & Hbr & Hfr); auto.
  exists l, r. split; [exact E|]. repeat split; auto.
  - apply slice_Forall; auto; lia.
  - apply slice_Forall; auto; try lia. intros i v Hi Hv.
    specialize (Hfl i v ltac:(lia) Hv). lia.
  - apply slice_Forall; auto; lia.
  - apply slice_Forall; auto; try lia. intros i v Hi Hv.
    specialize (Hfr i v ltac:(lia) Hv). lia.
Qed.

(** The two offsets on a sorted range, as counts. *)
Lemma sorted_range_counts {A} (a : list A) (key : A -> Z) (xl xr lo hi : Z) :
  0 <= lo -> lo <= hi -> hi <= Z.of_nat (length a) -> xl <= xr ->
  Sorted Z.le (key <$> slice a lo hi) ->
  exists l r,
    interval_offsets a key xl xr lo (Some hi) = Ok (l, r) /\
    lo <= l /\ l <= r /\ r <= hi /\
    l = lo + Z.of_nat (length (filter (fun v => key v < xl) (slice a lo hi))) /\
    r = lo + Z.of_nat (length (filter (fun v => key v < xr) (slice a lo hi))).
Proof.
  intros Hlo Hle Hhi Hx Hs.
  destruct (sorted_range_parts a key xl xr lo hi)
    as (l & r & E & Hl & Hlr & Hr & Hl1 & Hl2 & Hr1 & Hr2); auto.
  exists l, r. split; [exact E|]. repeat split; auto.
  - rewrite (slice_split a lo l hi) by lia. rewrite filter_app.
    rewrite (filter_all _ (slice a lo l)), (filter_none _ (slice a l hi))
      by done.
    rewrite app_nil_r, length_slice by lia. lia.
  - rewrite (slice_split a lo r hi) by lia. rewrite filter_app.
    rewrite (filter_all _ (slice a lo r)), (filter_none _ (slice a r hi))
      by done.
    rewrite app_nil_r, length_slice by lia. lia.
Qed.

(** X4: on a sorted range with bounds inside the sequence the pair is
    that of two independent lower-bound searches: [l - lo] is the number of
    elements of [a[lo:hi]] with key below [xl], and [r - lo] the number of
    those with key below [xr]. *)
Theorem interval_offsets_counts {A} (a : list A) (key : A -> Z)
    (xl xr lo : Z) (hi : option Z) :
  0 <= lo ->
  lo <= default (Z.of_nat (length a)) hi ->
  default (Z.of_nat (length a)) hi <= Z.of_nat (length a) ->
  xl <= xr ->
  Sorted Z.le (key <$> slice a lo (default (Z.of_nat (length a)) hi)) ->
  interval_offsets a key xl xr lo hi =
  Ok (lo + Z.of_nat
             (length (filter (fun v => key v < xl)
                        (slice a lo (default (Z.of_nat (length a)) hi)))),
      lo + Z.of_nat
             (length (filter (fun v => key v < xr)
                        (slice a lo (default (Z.of_nat (length a)) hi))))).
Proof.
  rewrite interval_offsets_default_hi.
  set (h := default (Z.of_nat (length a)) hi).
  intros Hlo Hle Hhi Hx Hs.
  destruct (sorted_range_counts a key xl xr lo h)
    as (l & r & -> & _ & _ & _ & <- & <-); auto.
Qed.

Lemma interval_offsets_counts_witness :
  interval_offsets [1; 2; 5; 5; 9; 9] id 3 9 1 (Some 5) = Ok (2, 4).
Proof.
  apply (interval_offsets_counts [1; 2; 5; 5; 9; 9] id 3 9 1 (Some 5));
    simpl; try lia.
  vm_compute. repeat constructor; discriminate.
Defined.

(** X5: on a sorted range with bounds inside the sequence, the slice
    [a[l:r]] between the two offsets is the elements of [a[lo:hi]] with key
    in [xl, xr), all of them and in their order. *)
Theorem interval_offsets_slice_filter {A} (a : list A) (key : A -> Z)
    (xl xr lo : Z) (hi : option Z) :
  0 <= lo ->
  lo <= default (Z.of_nat (length a)) hi ->
  default (Z.of_nat (length a)) hi <= Z.of_nat (length a) ->
  xl <= xr ->
  Sorted Z.le (key <$> slice a lo (default (Z.of_nat (length a)) hi)) ->
  exists l r,
    interval_offsets a key xl xr lo hi = Ok (l, r) /\
    slice a l r
    = filter (fun v => xl <= key v < xr)
        (slice a lo (default (Z.of_nat (length a)) hi)).
Proof.
  rewrite interval_offsets_default_hi.
  set (h := default (Z.of_nat (length a)) hi).
  intros Hlo Hle Hhi Hx Hs.
  destruct (sorted_range_parts a key xl xr lo h)
    as (l & r & -> & Hl & Hlr & Hr & Hl1 & Hl2 & Hr1 & Hr2); auto.
  exists l, r. split; [done|].
  rewrite (slice_split a lo l h) by lia.
  rewrite (slice_split a l r h) in Hl2 |- * by lia.
  apply Forall_app in Hl2 as [Hl2 _].
  rewrite (slice_split a lo l r) in Hr1 by lia.
  apply Forall_app in Hr1 as [_ Hr1].
  rewrite !filter_app.
  rewrite (filter_none _ (slice a lo l)), (filter_all _ (slice a l r)),
    (filter_none _ (slice a r h)).
  - by rewrite app_nil_r.
  - eapply Forall_impl; [exact Hr2|]. simpl. intros; lia.
  - apply Forall_forall. intros v Hv.
    rewrite Forall_forall in Hl2, Hr1.
    specialize (Hl2 v Hv). specialize (Hr1 v Hv). simpl in *. lia.
  - eapply Forall_impl; [exact Hl1|]. simpl. intros; lia.
Qed.

Lemma interval_offsets_slice_filter_witness :
  exists l r,
    interval_offsets [1; 2; 5; 5; 9; 9] id 3 9 1 (Some 5) = Ok (l, r) /\
    slice [1; 2; 5; 5; 9; 9] l r
    = filter (fun v => 3 <= id v < 9) (slice [1; 2; 5; 5; 9; 9] 1 5).
Proof.
  apply (interval_offsets_slice_filter [1; 2; 5; 5; 9; 9] id 3 9 1 (Some 5));
    simpl; try lia.
  vm_compute. repeat constructor; discriminate.
Defined.

(** ** What [interval_offsets] reads *)

Lemma getitem_agree {A B} (a : list A) (b : list B) (ka : A -> Z)
    (kb : B -> Z) (i : Z) :
  0 <= i -> ka <$> a !! Z.to_nat i = kb <$> b !! Z.to_nat i ->
  (exists x y, getitem a i = Ok x /\ getitem b i = Ok y /\ ka x = kb y) \/
  (getitem a i = Raise IndexError /\ getitem b i = Raise IndexError).
Proof.
  intros Hi E.
  destruct (a !! Z.to_nat i) as [x|] eqn:Ea;
    destruct (b !! Z.to_nat i) as [y|] eqn:Eb; simpl in E; try discriminate.
  - left. exists x, y.
    pose proof (lookup_lt_Some _ _ _ Ea). pose proof (lookup_lt_Some _ _ _ Eb).
    destruct (getitem_in_range a i) as (x' & -> & Ex); [lia|].
    destruct (getitem_in_range b i) as (y' & -> & Ey); [lia|].
    rewrite Ea in Ex. rewrite Eb in Ey.
    repeat split; congruence.
  - right. apply lookup_ge_None in Ea, Eb.
    rewrite !getitem_out_of_range by lia. done.
Qed.

Section SameKeys.
Context {A B : Type}.
Variables (a : list A) (b : list B) (ka : A -> Z) (kb : B -> Z).
Variables L H : Z.
Hypothesis HL : 0 <= L.
Hypothesis Hkeys :
  forall i, L <= i < H -> ka <$> a !! Z.to_nat i = kb <$> b !! Z.to_nat i.

Lemma narrow_same_keys (xl xr lo hi : Z) (mid : option Z) :
  L <= lo -> hi <= H ->
  narrow a ka xl xr lo hi mid = narrow b kb xl xr lo hi mid.
Proof.
  remember (Z.to_nat (hi - lo)) as n eqn:Hn.
  revert lo hi mid Hn. induction (lt_wf n) as [n _ IH].
  intros lo hi mid -> Hlo Hhi.
  rewrite (narrow_equation_1 a), (narrow_equation_1 b).
  destruct (Z_lt_dec lo hi) as [Hlt|Hge]; simpl; [|done].
  pose proof (midpoint_bounds lo hi Hlt) as Hm.
  destruct (getitem_agree a b ka kb ((lo + hi) / 2))
    as [(x & y & -> & -> & Hxy)|[-> ->]]; [lia|apply Hkeys; lia| |done].
  simpl. rewrite Hxy.
  destruct (_ && _).
  - apply (IH (Z.to_nat ((lo + hi) / 2 - lo))); lia.
  - destruct (_ && _); [|done].
    apply (IH (Z.to_nat (hi - ((lo + hi) / 2 + 1)))); lia.
Qed.

Lemma bisect_xl_same_keys (xl llo lhi : Z) :
  L <= llo -> lhi <= H ->
  bisect_xl a ka xl llo lhi = bisect_xl b kb xl llo lhi.
Proof.
  remember (Z.to_nat (lhi - llo)) as n eqn:Hn.
  revert llo lhi Hn. induction (lt_wf n) as [n _ IH].
  intros llo lhi -> Hlo Hhi.
  rewrite (bisect_xl_equation_1 a), (bisect_xl_equation_1 b).
  destruct (Z_lt_dec llo lhi) as [Hlt|Hge]; simpl; [|done].
  pose proof (midpoint_bounds llo lhi Hlt) as Hm.
  destruct (getitem_agree a b ka kb ((llo + lhi) / 2))
    as [(x & y & -> & -> & Hxy)|[-> ->]]; [lia|apply Hkeys; lia| |done].
  simpl. rewrite Hxy.
  destruct (kb y <? xl).
  - apply (IH (Z.to_nat (lhi - ((llo + lhi) / 2 + 1)))); lia.
  - apply (IH (Z.to_nat ((llo + lhi) / 2 - llo))); lia.
Qed.

Lemma bisect_xr_same_keys (xr rlo rhi : Z) :
  L <= rlo -> rhi <= H ->
  bisect_xr a ka xr rlo rhi = bisect_xr b kb xr rlo rhi.
Proof.
  remember (Z.to_nat (rhi - rlo)) as n eqn:Hn.
  revert rlo rhi Hn. induction (lt_wf n) as [n _ IH].
  intros rlo rhi -> Hlo Hhi.
  rewrite (bisect_xr_equation_1 a), (bisect_xr_equation_1 b).
  destruct (Z_lt_dec rlo rhi) as [Hlt|Hge]; simpl; [|done].
  pose proof (midpoint_bounds rlo rhi Hlt) as Hm.
  destruct (getitem_agree a b ka kb ((rlo + rhi) / 2))
    as [(x & y & -> & -> & Hxy)|[-> ->]]; [lia|apply Hkeys; lia| |done].
  simpl. rewrite Hxy.
  destruct (xr <=? kb y).
  - apply (IH (Z.to_nat ((rlo + rhi) / 2 - rlo))); lia.
  - apply (IH (Z.to_nat (rhi - ((rlo + rhi) / 2 + 1)))); lia.
Qed.

End SameKeys.

Lemma narrow_result_range {A} (a : list A) (key : A -> Z) (L H : Z)
    (xl xr lo hi : Z) (mid : option Z) (lo' hi' : Z) (mid' : option Z) :
  L <= lo -> hi <= H ->
  narrow a key xl xr lo hi mid = Ok (lo', hi', mid') ->
  L <= lo' /\ hi' <= H /\
  (mid' = mid \/ exists m, mid' = Some m /\ L <= m < H).
Proof.
  remember (Z.to_nat (hi - lo)) as n eqn:Hn.
  revert lo hi mid Hn. induction (lt_wf n) as [n _ IH].
  intros lo hi mid -> Hlo Hhi. rewrite narrow_equation_1.
  destruct (Z_lt_dec lo hi) as [Hlt|Hge]; simpl.
  2:{ intros [= <- <- <-]. auto. }
  pose proof (midpoint_bounds lo hi Hlt) as Hm.
  destruct (getitem a ((lo + hi) / 2)) as [v|e]; simpl; [|done].
  assert (Hmid : exists m, Some ((lo + hi) / 2) = Some m /\ L <= m < H)
    by (eexists; split; [reflexivity|lia]).
  destruct (_ && _).
  - intros E.
    apply (IH (Z.to_nat ((lo + hi) / 2 - lo)) ltac:(lia)) in E
      as (? & ? & [->|?]); auto; lia.
  - destruct (_ && _).
    + intros E.
      apply (IH (Z.to_nat (hi - ((lo + hi) / 2 + 1))) ltac:(lia)) in E
        as (? & ? & [->|?]); auto; lia.
    + intros [= <- <- <-]. auto.
Qed.

(** X6: [interval_offsets] reads the sequence only through the keys of
    the positions [lo .. hi-1]: two sequences, of any element types, whose
    keys agree at these positions (both absent where one is) give the same
    pair or the same error. *)
Theorem interval_offsets_reads_range_keys {A B} (a : list A) (b : list B)
    (ka : A -> Z) (kb : B -> Z) (xl xr lo hi : Z) :
  (forall i, lo <= i < hi ->
     ka <$> a !! Z.to_nat i = kb <$> b !! Z.to_nat i) ->
  interval_offsets a ka xl xr lo (Some hi)
  = interval_offsets b kb xl xr lo (Some hi).
Proof.
  intros Hk. unfold interval_offsets.
  destruct (Z.ltb_spec lo 0) as [?|Hlo]; [done|].
  destruct (xr <? xl); [done|]. destruct (lo =? hi); [done|].
  rewrite (narrow_same_keys a b ka kb lo hi Hlo Hk) by lia.
  destruct (narrow b kb xl xr lo hi None) as [[[lo' hi'] mid']|e] eqn:E;
    simpl; [|done].
  apply (narrow_result_range b kb lo hi) in E as (? & ? & Hm); try lia.
  destruct Hm as [->|(m & -> & ?)]; simpl; [done|].
  rewrite (bisect_xl_same_keys a b ka kb lo hi Hlo Hk) by lia.
  destruct (bisect_xl b kb xl lo' m); simpl; [|done].
  by rewrite (bisect_xr_same_keys a b ka kb lo hi Hlo Hk) by lia.
Qed.

Lemma interval_offsets_reads_range_keys_witness :
  interval_offsets [100; 2; 5; 7; -3] id 3 9 1 (Some 4)
  = interval_offsets
      [sample_occurrence "a" 0 None; sample_occurrence "b" 2 None;
       sample_occurrence "c" 5 None; sample_occurrence "d" 7 None]
      EntityOccurrence.offset 3 9 1 (Some 4).
Proof.
  apply (interval_offsets_reads_range_keys [100; 2; 5; 7; -3]).
  intros i Hi.
  assert (i = 1 \/ i = 2 \/ i = 3) as [->|[->| ->]] by lia; reflexivity.
Defined.

(** ** Further properties of [TextChunk.build] *)

Lemma build_unfold (document : IEDocument.t) (token_offset token_offset_end : Z)
    (text : string) (chunk : TextChunk.t) :
  TextChunk.build document token_offset token_offset_end text = Ok chunk ->
  exists l r,
    interval_offsets (IEDocument.entities document) EntityOccurrence.offset
      token_offset token_offset_end 0 None = Ok (l, r) /\
    TextChunk.tokens chunk
      = slice (IEDocument.tokens document) token_offset token_offset_end /\
    TextChunk.postags chunk
      = slice (IEDocument.postags document) token_offset token_offset_end /\
    EntityInChunk.offset <$> TextChunk.entities chunk
      = (fun o => EntityOccurrence.offset o - token_offset)
        <$> slice (IEDocument.entities document) l r /\
    EntityInChunk.alias <$> TextChunk.entities chunk
      = EntityOccurrence.alias <$> slice (IEDocument.entities document) l r /\
    EntityInChunk.key <$> TextChunk.entities chunk
      = (fun o => Entity.key (EntityOccurrence.entity o))
        <$> slice (IEDocument.entities document) l r.
Proof.
  unfold TextChunk.build.
  destruct (interval_offsets _ _ _ _ _ _) as [[l r]|e]; simpl; [|done].
  intros [= <-]. exists l, r. simpl.
  by rewrite <- !list_fmap_compose.
Qed.

(** X7: the two lists of a chunk correspond one to one whenever those of
    the document do: if [document.tokens] and [document.postags] have the
    same length, so have [chunk.tokens] and [chunk.postags], for every
    range [build] accepts, also one that reaches outside the tokens or
    uses negative bounds. *)
Theorem build_lists_same_length (document : IEDocument.t)
    (token_offset token_offset_end : Z) (text : string) (chunk : TextChunk.t) :
  length (IEDocument.tokens document) = length (IEDocument.postags document) ->
  TextChunk.build document token_offset token_offset_end text = Ok chunk ->
  length (TextChunk.tokens chunk) = length (TextChunk.postags chunk).
Proof.
  intros Hlen (l & r & _ & -> & -> & _)%build_unfold.
  unfold slice. by rewrite !length_take, !length_drop, Hlen.
Qed.

Lemma build_lists_same_length_witness :
  exists chunk,
    TextChunk.build sample_document (-4) 12 "t6 .. t9" = Ok chunk /\
    length (TextChunk.tokens chunk) = length (TextChunk.postags chunk).
Proof.
  destruct (TextChunk.build sample_document (-4) 12 "t6 .. t9")
    as [chunk|e] eqn:E; [|vm_compute in E; discriminate].
  exists chunk. split; [reflexivity|].
  apply (build_lists_same_length sample_document (-4) 12 "t6 .. t9" chunk);
    [reflexivity|exact E].
Defined.

Lemma StronglySorted_take {B} (R : B -> B -> Prop) (n : nat) (l : list B) :
  StronglySorted R l -> StronglySorted R (take n l).
Proof.
  intros Hl. revert n. induction Hl as [|x l Hl IH Hx]; intros [|n]; simpl;
    try constructor; auto.
  by apply Forall_take.
Qed.

Lemma StronglySorted_drop {B} (R : B -> B -> Prop) (n : nat) (l : list B) :
  StronglySorted R l -> StronglySorted R (drop n l).
Proof.
  intros Hl. revert n. induction Hl as [|x l Hl IH Hx]; intros [|n]; simpl;
    try constructor; auto.
Qed.

(** X8: [build] keeps the order of the occurrences: if the document's
    occurrences are sorted ascending by offset, the entities of every chunk
    built from it are sorted ascending by their chunk offset. *)
Theorem build_entities_sorted (document : IEDocument.t)
    (token_offset token_offset_end : Z) (text : string) (chunk : TextChunk.t) :
  Sorted Z.le (EntityOccurrence.offset <$> IEDocument.entities document) ->
  TextChunk.build document token_offset token_offset_end text = Ok chunk ->
  Sorted Z.le (EntityInChunk.offset <$> TextChunk.entities chunk).
Proof.
  intros Hs (l & r & _ & _ & _ & -> & _)%build_unfold.
  apply StronglySorted_Sorted.
  apply Sorted_StronglySorted in Hs; [|intros ? ? ?; lia].
  rewrite (list_fmap_compose EntityOccurrence.offset
             (fun z => z - token_offset)).
  apply (StronglySorted_fmap _ Z.le Z.le); [intros; lia|].
  unfold slice. rewrite fmap_take, fmap_drop.
  by apply StronglySorted_take, StronglySorted_drop.
Qed.

Lemma build_entities_sorted_witness :
  exists chunk,
    TextChunk.build sample_document 3 12 "t3 .. t9" = Ok chunk /\
    Sorted Z.le (EntityInChunk.offset <$> TextChunk.entities chunk).
Proof.
  destruct (TextChunk.build sample_document 3 12 "t3 .. t9")
    as [chunk|e] eqn:E; [|vm_compute in E; discriminate].
  exists chunk. split; [reflexivity|].
  apply (build_entities_sorted sample_document 3 12 "t3 .. t9" chunk);
    [|exact E].
  vm_compute. repeat constructor; discriminate.
Defined.

Lemma slice_split_clamped {A} (a : list A) (s m e : Z) :
  0 <= s -> s <= m -> m <= e ->
  slice a s e = slice a s m ++ slice a m e.
Proof.
  intros Hs Hsm Hme. unfold slice, slice_bound.
  destruct (Z.ltb_spec s 0); [lia|]. destruct (Z.ltb_spec m 0); [lia|].
  destruct (Z.ltb_spec e 0); [lia|].
  set (n := Z.of_nat (length a)).
  replace (Z.to_nat (Z.min e n - Z.min s n))
    with (Z.to_nat (Z.min m n - Z.min s n)
          + Z.to_nat (Z.min e n - Z.min m n))%nat by lia.
  rewrite <- take_take_drop, drop_drop.
  by replace (Z.to_nat (Z.min s n) + Z.to_nat (Z.min m n - Z.min s n))%nat
    with (Z.to_nat (Z.min m n)) by lia.
Qed.

(** X9: chunks of adjacent ranges compose. For a document with sorted
    occurrences and [0 <= a <= b <= c], the chunk of [a, c) has the tokens
    and the postags of the chunk of [a, b) followed by those of the chunk
    of [b, c), and its entities are those of the first chunk followed by
    those of the second with every offset moved by [b - a]: no occurrence
    is lost or counted twice at the seam. *)
Theorem build_adjacent_ranges (document : IEDocument.t) (a b c : Z)
    (text1 text2 text : string) :
  Sorted Z.le (EntityOccurrence.offset <$> IEDocument.entities document) ->
  0 <= a -> a <= b -> b <= c ->
  exists chunk1 chunk2 chunk,
    TextChunk.build document a b text1 = Ok chunk1 /\
    TextChunk.build document b c text2 = Ok chunk2 /\
    TextChunk.build document a c text = Ok chunk /\
    TextChunk.tokens chunk
      = TextChunk.tokens chunk1 ++ TextChunk.tokens chunk2 /\
    TextChunk.postags chunk
      = TextChunk.postags chunk1 ++ TextChunk.postags chunk2 /\
    TextChunk.entities chunk
      = TextChunk.entities chunk1 ++
        ((fun e =>
            EntityInChunk.mk (EntityInChunk.key e)
              (EntityInChunk.canonical_form e) (EntityInChunk.kind e)
              (EntityInChunk.offset e + (b - a)) (EntityInChunk.alias e))
         <$> TextChunk.entities chunk2).
Proof.
  intros Hs Ha Hab Hbc.
  set (ents := IEDocument.entities document).
  assert (Hs' : Sorted Z.le
                  (EntityOccurrence.offset
                   <$> slice ents 0 (Z.of_nat (length ents))))
    by (by rewrite slice_full).
  destruct (sorted_range_counts ents EntityOccurrence.offset a b 0
              (Z.of_nat (length ents)))
    as (l1 & r1 & E1 & ? & ? & ? & Hl1 & Hr1); auto; try lia.
  destruct (sorted_range_counts ents EntityOccurrence.offset b c 0
              (Z.of_nat (length ents)))
    as (l2 & r2 & E2 & ? & ? & ? & Hl2 & Hr2); auto; try lia.
  destruct (sorted_range_counts ents EntityOccurrence.offset a c 0
              (Z.of_nat (length ents)))
    as (l3 & r3 & E3 & ? & ? & ? & Hl3 & Hr3); auto; try lia.
  assert (l3 = l1) as -> by congruence.
  assert (l2 = r1) as -> by congruence.
  assert (r3 = r2) as -> by congruence.
  change (Some (Z.of_nat (length ents)))
    with (Some (default (Z.of_nat (length ents)) None)) in E1, E2, E3.
  rewrite <- interval_offsets_default_hi in E1, E2, E3.
  unfold TextChunk.build. fold ents. rewrite E1, E2, E3. simpl.
  do 3 eexists. repeat (split; [reflexivity|]). simpl.
  split; [by apply slice_split_clamped|].
  split; [by apply slice_split_clamped|].
  rewrite (slice_split ents l1 r1 r2) by lia.
  rewrite fmap_app. f_equal.
  rewrite <- list_fmap_compose. apply list_fmap_ext. intros i o _. simpl.
  f_equal. lia.
Qed.

Lemma build_adjacent_ranges_witness :
  exists chunk1 chunk2 chunk,
    TextChunk.build sample_document 1 5 "t1 .. t4" = Ok chunk1 /\
    TextChunk.build sample_document 5 10 "t5 .. t9" = Ok chunk2 /\
    TextChunk.build sample_document 1 10 "t1 .. t9" = Ok chunk /\
    EntityInChunk.offset <$> TextChunk.entities chunk1 = [1] /\
    EntityInChunk.offset <$> TextChunk.entities chunk2 = [0; 0; 4] /\
    EntityInChunk.offset <$> TextChunk.entities chunk = [1; 4; 4; 8].
Proof.
  destruct (build_adjacent_ranges sample_document 1 5 10
              "t1 .. t4" "t5 .. t9" "t1 .. t9")
    as (chunk1 & chunk2 & chunk & E1 & E2 & E & _ & _ & He);
    try lia.
  { vm_compute. repeat constructor; discriminate. }
  exists chunk1, chunk2, chunk. repeat (split; [assumption|]).
  vm_compute in E1, E2, E.
  injection E1 as <-. injection E2 as <-. injection E as <-.
  repeat split.
Defined.

(** X10: the chunk of the whole document. For a document with sorted
    occurrences whose offsets all lie in [0, len(tokens)), the call
    [build(document, 0, len(document.tokens), text)] returns a chunk with
    all the tokens and all the occurrences, in their order, with offsets
    and aliases as in the document. *)
Theorem build_whole_document (document : IEDocument.t) (text : string) :
  Sorted Z.le (EntityOccurrence.offset <$> IEDocument.entities document) ->
  Forall (fun o => 0 <= EntityOccurrence.offset o
                   < Z.of_nat (length (IEDocument.tokens document)))
         (IEDocument.entities document) ->
  exists chunk,
    TextChunk.build document 0
      (Z.of_nat (length (IEDocument.tokens document))) text = Ok chunk /\
    TextChunk.tokens chunk = IEDocument.tokens document /\
    EntityInChunk.offset <$> TextChunk.entities chunk
      = EntityOccurrence.offset <$> IEDocument.entities document /\
    EntityInChunk.alias <$> TextChunk.entities chunk
      = EntityOccurrence.alias <$> IEDocument.entities document.
Proof.
  intros Hs Hall.
  destruct (interval_offsets_filter (IEDocument.entities document)
              EntityOccurrence.offset 0
              (Z.of_nat (length (IEDocument.tokens document))))
    as (l & r & E & Hf); auto; [lia|].
  rewrite filter_all in Hf by done.
  unfold TextChunk.build. rewrite E. simpl. rewrite Hf.
  eexists. split; [reflexivity|]. simpl. repeat split.
  - apply slice_full.
  - rewrite <- list_fmap_compose. apply list_fmap_ext. intros i o _.
    simpl. lia.
  - by rewrite <- list_fmap_compose.
Qed.

Lemma build_whole_document_witness :
  exists chunk,
    TextChunk.build sample_document 0 10 "all" = Ok chunk /\
    TextChunk.tokens chunk = IEDocument.tokens sample_document /\
    EntityInChunk.offset <$> TextChunk.entities chunk = [2; 5; 5; 9] /\
    EntityInChunk.alias <$> TextChunk.entities chunk
      = [None; Some "Bobby"; None; Some "D."].
Proof.
  apply (build_whole_document sample_document "all").
  - vm_compute. repeat constructor; discriminate.
  - vm_compute. repeat constructor; discriminate.
Defined.

(** X11: on any document, sorted or not, and any range with
    [token_offset <= token_offset_end], the entities of the chunk are the
    projections of one contiguous run [document.entities[l:r]],
    [0 <= l <= r <= len(document.entities)], in the order of the document:
    [build] never reorders or repeats an occurrence. *)
Theorem build_contiguous_run (document : IEDocument.t)
    (token_offset token_offset_end : Z) (text : string) :
  token_offset <= token_offset_end ->
  exists chunk l r,
    TextChunk.build document token_offset token_offset_end text = Ok chunk /\
    0 <= l /\ l <= r /\
    r <= Z.of_nat (length (IEDocument.entities document)) /\
    length (TextChunk.entities chunk) = Z.to_nat (r - l) /\
    Forall2
      (fun e o =>
         EntityInChunk.key e = Entity.key (EntityOccurrence.entity o) /\
         EntityInChunk.canonical_form e
           = Entity.canonical_form (EntityOccurrence.entity o) /\
         EntityInChunk.kind e = Entity.kind (EntityOccurrence.entity o) /\
         EntityInChunk.offset e = EntityOccurrence.offset o - token_offset /\
         EntityInChunk.alias e = EntityOccurrence.alias o)
      (TextChunk.entities chunk)
      (slice (IEDocument.entities document) l r).
Proof.
  intros Hx.
  destruct (interval_offsets_ordered (IEDocument.entities document)
              EntityOccurrence.offset token_offset token_offset_end 0
              (Z.of_nat (length (IEDocument.entities document))))
    as (l & r & E & ? & ? & ?); try lia.
  change (Some (Z.of_nat (length (IEDocument.entities document))))
    with (Some (default (Z.of_nat (length (IEDocument.entities document)))
                  None)) in E.
  rewrite <- interval_offsets_default_hi in E.
  unfold TextChunk.build. rewrite E. simpl.
  eexists _, l, r. split; [reflexivity|]. simpl. repeat split; auto.
  - rewrite length_fmap, length_slice by lia. done.
  - apply Forall2_fmap_l, Forall_Forall2_diag, Forall_forall. done.
Qed.

Lemma build_contiguous_run_witness :
  exists chunk l r,
    TextChunk.build sample_document 3 9 "t3 .. t8" = Ok chunk /\
    0 <= l /\ l <= r /\ r <= 4 /\
    length (TextChunk.entities chunk) = Z.to_nat (r - l).
Proof.
  destruct (build_contiguous_run sample_document 3 9 "t3 .. t8")
    as (chunk & l & r & E & ? & ? & ? & ? & _); [lia|].
  exists chunk, l, r. auto.
Defined.

(** ** Further properties of the preprocess results *)

Lemma name_inj (s s' : PreProcessSteps.t) :
  PreProcessSteps.name s = PreProcessSteps.name s' -> s = s'.
Proof.
  destruct s, s'; intros E; try reflexivity; vm_compute in E; discriminate E.
Qed.

Lemma mapping_inj (s s' : PreProcessSteps.t) (f : field) :
  preprocess_fields_mapping s = Some f ->
  preprocess_fields_mapping s' = Some f -> s = s'.
Proof. destruct s, s'; simpl; congruence. Qed.

(** The two ways a call of [set_preprocess_result] ends: with an exception
    and the document as it was, or with the result stored in the field of
    the step and the completion recorded under its name. *)
Lemma set_preprocess_result_outcome (self self' : IEDocument.t) (step : pyobj)
    (out : result IEDocument.t) (result : list pyval) (now : datetime) :
  set_preprocess_result step result now self = (self', out) ->
  (self' = self /\ exists e, out = Raise e) \/
  (exists s f,
     step = Step s /\ preprocess_fields_mapping s = Some f /\
     self' = stored self f s result now /\ out = Ok self').
Proof.
  destruct step as [[]|v].
  - intros [= <- <-]. right.
    by exists PreProcessSteps.tokenization, tokens_field.
  - rewrite set_segmentation_unfold.
    repeat (case_bool_decide; [intros [= <- <-]; left; eauto|]).
    destruct (getitem result 0); [|intros [= <- <-]; left; eauto].
    case_bool_decide; [intros [= <- <-]; left; eauto|].
    destruct (getitem result (-1)); [|intros [= <- <-]; left; eauto].
    case_bool_decide; intros [= <- <-]; [left; eauto|].
    right. by exists PreProcessSteps.segmentation, sentences_field.
  - run_method. case_bool_decide; simpl; intros [= <- <-]; [left; eauto|].
    right. by exists PreProcessSteps.tagging, postags_field.
  - intros [= <- <-]. left. eauto.
  - intros [= <- <-]. left. eauto.
Qed.

Lemma stored_stored (self : IEDocument.t) (f : field) (s : PreProcessSteps.t)
    (r1 r2 : list pyval) (t1 t2 : datetime) :
  stored (stored self f s r1 t1) f s r2 t2 = stored self f s r2 t2.
Proof.
  unfold stored, set_preprocess_metadata.
  destruct f; simpl; by rewrite insert_insert_eq.
Qed.

(** A successful segmentation call has checked the four rules. *)
Lemma set_segmentation_success (self self' out : IEDocument.t)
    (result : list pyval) (now : datetime) :
  set_preprocess_result (Step PreProcessSteps.segmentation) result now self
    = (self', Ok out) ->
  valid_segmentation (length (tokens self)) result.
Proof.
  rewrite set_segmentation_unfold.
  case_bool_decide as Hf; [done|]. try apply dec_stable in Hf.
  apply filter_non_int_nil in Hf as (zs & ->).
  case_bool_decide as Hs; [done|]. try apply dec_stable in Hs.
  apply sorted_eq_iff in Hs.
  case_bool_decide as Hd; [done|].
  rewrite length_remove_dups_lt in Hd.
  apply dec_stable in Hd. apply (NoDup_fmap PyInt) in Hd.
  destruct zs as [|z zs]; [done|].
  change (getitem (PyInt <$> z :: zs) 0) with (@Ok pyval (PyInt z)).
  cbn iota. case_bool_decide as H0; [done|]. try apply dec_stable in H0.
  destruct (last (z :: zs)) as [zl|] eqn:Hl; [|by apply last_None in Hl].
  rewrite (getitem_last (PyInt <$> z :: zs) (PyInt zl))
    by (by rewrite fmap_last, Hl).
  case_bool_decide as Hn; [done|]. try apply dec_stable in Hn.
  intros _. exists (z :: zs). repeat split; auto; simpl; congruence.
Qed.

(** When a call of [set_preprocess_result] succeeds, and what it leaves. *)
Lemma set_preprocess_result_Ok (self self' out : IEDocument.t)
    (s : PreProcessSteps.t) (result : list pyval) (now : datetime) :
  set_preprocess_result (Step s) result now self = (self', Ok out) <->
  accepted s (length (tokens self)) result /\
  exists f, preprocess_fields_mapping s = Some f /\
            self' = stored self f s result now /\ out = self'.
Proof.
  split.
  - intros E. split.
    + destruct s; simpl.
      * done.
      * by eapply set_segmentation_success.
      * revert E. run_method. by case_bool_decide.
      * revert E. by run_method.
    + apply set_preprocess_result_outcome in E
        as [(_ & e & ?)|(s' & f & [= <-] & ? & ? & [= <-])]; [done|].
      by exists f.
  - intros [Ha (f & Hf & -> & ->)].
    destruct s; simpl in *; try done; injection Hf as <-.
    + reflexivity.
    + destruct (set_segmentation_result self result now) as [Hv _].
      { destruct Ha as ([|? ?] & -> & _ & _ & ? & _); done. }
      destruct (Hv Ha) as (self' & E & _).
      apply set_preprocess_result_outcome in E as E'.
      destruct E' as [(_ & e & ?)|(s' & f & [= <-] & [= <-] & -> & _)];
        [done|exact E].
    + run_method. by rewrite bool_decide_eq_false_2 by auto.
Qed.

(** X12: when a call of [set_preprocess_result] succeeds. For a member
    of the enumeration the call returns the document exactly when the
    result is acceptable for the step: any result for tokenization, the
    four segmentation rules, one tag per token for tagging, never for
    [nerc]; the document is then the old one with the result in the field
    of the step and the time of the call recorded under its name. An
    argument that is no member of the enumeration is refused with
    [InvalidPreprocessSteps] before the result is looked at. *)
Theorem set_preprocess_result_accepts (self self' out : IEDocument.t)
    (result : list pyval) (now : datetime) :
  (forall s,
     set_preprocess_result (Step s) result now self = (self', Ok out) <->
     accepted s (length (tokens self)) result /\
     exists f, preprocess_fields_mapping s = Some f /\
               self' = stored self f s result now /\ out = self') /\
  (forall v,
     set_preprocess_result (Other v) result now self
       = (self, Raise InvalidPreprocessSteps)).
Proof.
  split; [|done]. intros s. apply set_preprocess_result_Ok.
Qed.

Lemma set_preprocess_result_accepts_witness :
  set_preprocess_result (Step PreProcessSteps.segmentation)
    (PyInt <$> [0; 4; 10]) 7 sample_document
  = (stored sample_document sentences_field PreProcessSteps.segmentation
       (PyInt <$> [0; 4; 10]) 7,
     Ok (stored sample_document sentences_field PreProcessSteps.segmentation
           (PyInt <$> [0; 4; 10]) 7)).
Proof.
  apply (set_preprocess_result_accepts sample_document). split.
  - exists [0; 4; 10]. repeat split.
    + repeat constructor; discriminate.
    + refine (bool_decide_unpack _ _). vm_compute. reflexivity.
  - exists sentences_field. repeat split.
Defined.

(** X13: the round trip. Whenever [set_preprocess_result] returns, the
    step is reported done on the document it leaves,
    [get_preprocess_result] for the step returns the list just given, and
    the completion mapping holds the time of the call under the name of the
    step. *)
Theorem set_then_get_preprocess_result (self self' out : IEDocument.t)
    (step : pyobj) (result : list pyval) (now : datetime) :
  set_preprocess_result step result now self = (self', Ok out) ->
  exists s,
    step = Step s /\ out = self' /\
    was_preprocess_done self' s = true /\
    get_preprocess_result self' s = Ok (Some result) /\
    preprocess_metadata self' !! PreProcessSteps.name s = Some (mk_done now).
Proof.
  intros E. apply set_preprocess_result_outcome in E
    as [(_ & e & ?)|(s & f & -> & Hf & Hst & [= Ho])]; [done|].
  subst out self'. exists s. repeat split.
  - apply was_preprocess_done_set.
  - unfold get_preprocess_result, stored.
    rewrite was_preprocess_done_set. unfold mapping_getitem. rewrite Hf.
    by destruct f.
  - apply lookup_insert_eq.
Qed.

Lemma set_then_get_preprocess_result_witness :
  exists self',
    set_preprocess_result (Step PreProcessSteps.tokenization)
      (PyStr <$> ["a"; "b"]) 7 sample_document = (self', Ok self') /\
    get_preprocess_result self' PreProcessSteps.tokenization
      = Ok (Some (PyStr <$> ["a"; "b"])).
Proof.
  destruct (set_preprocess_result (Step PreProcessSteps.tokenization)
              (PyStr <$> ["a"; "b"]) 7 sample_document)
    as [self' [out|e]] eqn:E; [|vm_compute in E; discriminate].
  destruct (set_then_get_preprocess_result sample_document self' out
              (Step PreProcessSteps.tokenization) (PyStr <$> ["a"; "b"]) 7 E)
    as (s & [= <-] & -> & _ & G & _).
  exists self'. split; [reflexivity|exact G].
Defined.

Lemma was_preprocess_done_stored (self : IEDocument.t) (f : field)
    (s s' : PreProcessSteps.t) (result : list pyval) (now : datetime) :
  s' <> s ->
  was_preprocess_done (stored self f s result now) s'
  = was_preprocess_done self s'.
Proof.
  intros Hne. unfold was_preprocess_done, stored, set_preprocess_metadata.
  destruct f; simpl; apply bool_decide_ext; rewrite dom_insert_L;
    (split; [intros [Hs%elem_of_singleton|?]%elem_of_union|set_solver]);
    auto; by apply name_inj in Hs.
Qed.

(** X14: what a call of [set_preprocess_result] leaves alone. Whatever
    its outcome, the call changes none of the attributes
    [human_identifier], [title], [url], [text], [creation_date],
    [metadata], [offsets] and [entities]; for every step other than the one
    of the call, whether it is reported done, its completion time and what
    [get_preprocess_result] answers for it are as before; and no call
    changes whether [nerc] is reported done. *)
Theorem set_preprocess_result_frame (self self' : IEDocument.t) (step : pyobj)
    (out : result IEDocument.t) (result : list pyval) (now : datetime) :
  set_preprocess_result step result now self = (self', out) ->
  (human_identifier self' = human_identifier self /\
   title self' = title self /\ url self' = url self /\
   text self' = text self /\ creation_date self' = creation_date self /\
   metadata self' = metadata self /\ offsets self' = offsets self /\
   entities self' = entities self) /\
  (forall s',
     step <> Step s' ->
     was_preprocess_done self' s' = was_preprocess_done self s' /\
     preprocess_metadata self' !! PreProcessSteps.name s'
       = preprocess_metadata self !! PreProcessSteps.name s' /\
     get_preprocess_result self' s' = get_preprocess_result self s') /\
  was_preprocess_done self' PreProcessSteps.nerc
    = was_preprocess_done self PreProcessSteps.nerc.
Proof.
  intros E. apply set_preprocess_result_outcome in E
    as [(-> & _)|(s & f & -> & Hf & -> & _)]; [done|].
  split; [by destruct f|]. split.
  - intros s' Hs'. assert (s' <> s) as Hne by congruence.
    pose proof (was_preprocess_done_stored self f s s' result now Hne) as Hd.
    split; [exact Hd|]. split.
    + unfold stored, set_preprocess_metadata.
      destruct f; simpl; apply lookup_insert_ne; intros ?%name_inj; done.
    + unfold get_preprocess_result. rewrite Hd.
      destruct (was_preprocess_done self s'); simpl; [|done].
      unfold mapping_getitem.
      destruct (preprocess_fields_mapping s') as [f'|] eqn:Hf'; [|done].
      simpl. do 2 f_equal.
      assert (f' <> f) by (intros ->; by apply Hne, (mapping_inj s' s f)).
      by destruct f, f'.
  - apply was_preprocess_done_stored. by intros <-.
Qed.

Lemma set_preprocess_result_frame_witness :
  get_preprocess_result
    (fst (set_preprocess_result (Step PreProcessSteps.tagging)
            (PyStr <$> ["a"; "b"; "c"; "d"; "e"; "f"; "g"; "h"; "i"; "j"])
            7 sample_document)) PreProcessSteps.segmentation
  = get_preprocess_result sample_document PreProcessSteps.segmentation.
Proof.
  destruct (set_preprocess_result_frame sample_document
              (fst (set_preprocess_result (Step PreProcessSteps.tagging)
                      (PyStr <$>
                         ["a"; "b"; "c"; "d"; "e"; "f"; "g"; "h"; "i"; "j"])
                      7 sample_document))
              (Step PreProcessSteps.tagging)
              (snd (set_preprocess_result (Step PreProcessSteps.tagging)
                      (PyStr <$>
                         ["a"; "b"; "c"; "d"; "e"; "f"; "g"; "h"; "i"; "j"])
                      7 sample_document))
              (PyStr <$> ["a"; "b"; "c"; "d"; "e"; "f"; "g"; "h"; "i"; "j"]) 7)
    as (_ & H & _).
  - vm_compute. reflexivity.
  - apply H. discriminate.
Defined.

(** X15: the exceptions of [set_preprocess_result], by step. A call for
    tokenization never raises; a call for segmentation raises an
    [IndexError] on the empty list and on any other list only one of its
    four [ValueError]s; a call for tagging raises only the cardinality
    [ValueError], and only when the lengths differ; a call for [nerc]
    raises only [KeyError]; an argument that is no step raises only
    [InvalidPreprocessSteps]. *)
Theorem set_preprocess_result_raises (self self' : IEDocument.t) (step : pyobj)
    (result : list pyval) (now : datetime) (e : exn) :
  set_preprocess_result step result now self = (self', Raise e) ->
  match step with
  | Other _ => e = InvalidPreprocessSteps
  | Step PreProcessSteps.tokenization => False
  | Step PreProcessSteps.segmentation =>
      (result = [] /\ e = IndexError) \/
      (result <> [] /\
       (e = ValueError "Segmentation result shall only contain ints" \/
        e = ValueError "Segmentation result shall be ordered." \/
        e = ValueError "Segmentation result shall not contain duplicates." \/
        e = ValueError "Segmentation result must be offsets of tokens."))
  | Step PreProcessSteps.tagging =>
      length result <> length (tokens self) /\
      e = ValueError "Tagging result must have same cardinality than tokens"
  | Step PreProcessSteps.nerc => e = KeyError
  end.
Proof.
  destruct step as [[]|v].
  - intros [=].
  - destruct result as [|x l]; [intros [= _ <-]; by left|].
    rewrite set_segmentation_unfold. intros E. right. split; [done|].
    revert E.
    repeat (case_bool_decide; [intros [= _ <-]; auto|]).
    change (getitem (x :: l) 0) with (@Ok pyval x). cbn iota.
    case_bool_decide; [intros [= _ <-]; auto|].
    destruct (last (x :: l)) as [y|] eqn:Hl; [|by apply last_None in Hl].
    rewrite (getitem_last (x :: l) y) by done.
    case_bool_decide; intros [= _ <-]; auto.
  - run_method. case_bool_decide; simpl; intros [= _ <-]. by split.
  - intros [= _ <-]. done.
  - intros [= _ <-]. done.
Qed.

Lemma set_preprocess_result_raises_witness :
  set_preprocess_result (Step PreProcessSteps.tagging) [PyStr "N"] 7
    sample_document
  = (sample_document,
     Raise (ValueError
              "Tagging result must have same cardinality than tokens")) /\
  length [PyStr "N"] <> length (tokens sample_document).
Proof.
  split; [vm_compute; reflexivity|].
  apply (set_preprocess_result_raises sample_document sample_document
           (Step PreProcessSteps.tagging) [PyStr "N"] 7
           (ValueError
              "Tagging result must have same cardinality than tokens")).
  vm_compute. reflexivity.
Defined.

Lemma Sorted_le_NoDup_lt (zs : list Z) :
  Sorted Z.le zs -> NoDup zs -> Sorted Z.lt zs.
Proof.
  induction 1 as [|z zs Hs IH Hz]; intros Hd; [constructor|].
  apply NoDup_cons in Hd as [Hn Hd]. constructor; [auto|].
  destruct Hz as [|y zs Hy]; constructor.
  assert (z <> y) by (intros ->; apply Hn; left). lia.
Qed.

Lemma StronglySorted_last_le (zs : list Z) (n : Z) :
  StronglySorted Z.le zs -> last zs = Some n -> Forall (fun z => z <= n) zs.
Proof.
  induction 1 as [|z zs Hs IH Hz]; intros Hl; [constructor|].
  destruct zs as [|y zs]; [injection Hl as <-; by repeat constructor|].
  rewrite last_cons_cons in Hl. specialize (IH Hl).
  constructor; [|done].
  apply Forall_cons in Hz as [? _]. apply Forall_cons in IH as [? _]. lia.
Qed.

(** X16: the sentence boundaries a successful segmentation call stores
    are integers, strictly increasing, from 0 up to the number of tokens:
    each lies in [0, len(tokens)], and the tokens are left as they were. *)
Theorem set_segmentation_stores_boundaries (self self' out : IEDocument.t)
    (result : list pyval) (now : datetime) :
  set_preprocess_result (Step PreProcessSteps.segmentation) result now self
    = (self', Ok out) ->
  exists zs,
    sentences self' = PyInt <$> zs /\
    tokens self' = tokens self /\
    Sorted Z.lt zs /\
    head zs = Some 0 /\
    last zs = Some (Z.of_nat (length (tokens self))) /\
    Forall (fun z => 0 <= z <= Z.of_nat (length (tokens self))) zs.
Proof.
  intros E. pose proof E as Hv%set_segmentation_success.
  apply set_preprocess_result_outcome in E
    as [(_ & e & ?)|(s & f & [= <-] & [= <-] & -> & _)]; [done|].
  destruct Hv as (zs & -> & Hs & Hd & Hh & Hl).
  exists zs. repeat split; auto.
  - by apply Sorted_le_NoDup_lt.
  - apply Sorted_StronglySorted in Hs; [|intros ? ? ?; lia].
    pose proof (StronglySorted_last_le zs _ Hs Hl) as Hle.
    destruct zs as [|z zs]; [done|]. injection Hh as ->.
    apply StronglySorted_inv in Hs as [_ Hge].
    apply Forall_cons in Hle as [? Hle]. constructor; [lia|].
    apply Forall_forall. intros y Hy.
    rewrite Forall_forall in Hge, Hle.
    specialize (Hge y Hy). specialize (Hle y Hy). lia.
Qed.

Lemma set_segmentation_stores_boundaries_witness :
  exists zs,
    sentences
      (fst (set_preprocess_result (Step PreProcessSteps.segmentation)
              (PyInt <$> [0; 4; 10]) 7 sample_document)) = PyInt <$> zs /\
    Sorted Z.lt zs /\
    Forall (fun z => 0 <= z <= 10) zs.
Proof.
  destruct (set_segmentation_stores_boundaries sample_document
              (fst (set_preprocess_result (Step PreProcessSteps.segmentation)
                      (PyInt <$> [0; 4; 10]) 7 sample_document))
              (fst (set_preprocess_result (Step PreProcessSteps.segmentation)
                      (PyInt <$> [0; 4; 10]) 7 sample_document))
              (PyInt <$> [0; 4; 10]) 7)
    as (zs & E & _ & Hs & _ & _ & Hb).
  - vm_compute. reflexivity.
  - exists zs. auto.
Defined.

Lemma tokens_stored (self : IEDocument.t) (f : field) (s : PreProcessSteps.t)
    (result : list pyval) (now : datetime) :
  preprocess_fields_mapping s = Some f -> s <> PreProcessSteps.tokenization ->
  tokens (stored self f s result now) = tokens self.
Proof. destruct s; simpl; intros [= <-] ?; done. Qed.

Lemma accepted_stored (self : IEDocument.t) (f : field)
    (s s' : PreProcessSteps.t) (r r' : list pyval) (now : datetime) :
  preprocess_fields_mapping s = Some f ->
  s <> PreProcessSteps.tokenization \/ s' = PreProcessSteps.tokenization ->
  accepted s' (length (tokens (stored self f s r now))) r'
  <-> accepted s' (length (tokens self)) r'.
Proof.
  intros Hf [Hs| ->]; [|done]. by rewrite (tokens_stored self f s).
Qed.

(** X17: the last write wins. When two calls of [set_preprocess_result]
    for the same step follow each other and both succeed, the document
    after the second is the one the second call alone would have left: the
    field and the completion time of the first call are both replaced. *)
Theorem set_preprocess_result_overwrites
    (self self1 out1 self2 out2 : IEDocument.t) (step : pyobj)
    (r1 r2 : list pyval) (t1 t2 : datetime) :
  set_preprocess_result step r1 t1 self = (self1, Ok out1) ->
  set_preprocess_result step r2 t2 self1 = (self2, Ok out2) ->
  set_preprocess_result step r2 t2 self = (self2, Ok self2).
Proof.
  intros E1 E2. apply set_preprocess_result_outcome in E1
    as [(_ & e & ?)|(s & f & -> & Hf & -> & _)]; [done|].
  apply set_preprocess_result_Ok in E2 as (Ha & f' & Hf' & -> & _).
  assert (f' = f) as -> by congruence.
  apply set_preprocess_result_Ok. split.
  - apply (accepted_stored self f s s r1 r2 t1) in Ha; [done|done|].
    destruct s; [by right|by left..].
  - exists f. by rewrite stored_stored.
Qed.

Lemma set_preprocess_result_overwrites_witness :
  set_preprocess_result (Step PreProcessSteps.segmentation)
    (PyInt <$> [0; 10]) 9 sample_document
  = (stored sample_document sentences_field PreProcessSteps.segmentation
       (PyInt <$> [0; 10]) 9,
     Ok (stored sample_document sentences_field PreProcessSteps.segmentation
           (PyInt <$> [0; 10]) 9)).
Proof.
  set (d1 := stored sample_document sentences_field
               PreProcessSteps.segmentation (PyInt <$> [0; 4; 10]) 7).
  replace (stored sample_document sentences_field
             PreProcessSteps.segmentation (PyInt <$> [0; 10]) 9)
    with (stored d1 sentences_field PreProcessSteps.segmentation
            (PyInt <$> [0; 10]) 9) by (vm_compute; reflexivity).
  apply (set_preprocess_result_overwrites sample_document d1 d1 _
           (stored d1 sentences_field PreProcessSteps.segmentation
              (PyInt <$> [0; 10]) 9)
           (Step PreProcessSteps.segmentation) (PyInt <$> [0; 4; 10])
           (PyInt <$> [0; 10]) 7 9); vm_compute; reflexivity.
Defined.

(** X18: successful calls for two different steps, neither of them
    tokenization, commute: made in the other order both succeed as well and
    leave the same document. *)
Theorem set_preprocess_result_commutes
    (self self1 out1 self12 out12 : IEDocument.t)
    (s1 s2 : PreProcessSteps.t) (r1 r2 : list pyval) (t1 t2 : datetime) :
  s1 <> s2 ->
  s1 <> PreProcessSteps.tokenization -> s2 <> PreProcessSteps.tokenization ->
  set_preprocess_result (Step s1) r1 t1 self = (self1, Ok out1) ->
  set_preprocess_result (Step s2) r2 t2 self1 = (self12, Ok out12) ->
  exists self2,
    set_preprocess_result (Step s2) r2 t2 self = (self2, Ok self2) /\
    set_preprocess_result (Step s1) r1 t1 self2 = (self12, Ok self12).
Proof.
  intros Hne Hs1 Hs2 E1 E2.
  apply set_preprocess_result_Ok in E1 as (Ha1 & f1 & Hf1 & -> & _).
  apply set_preprocess_result_Ok in E2 as (Ha2 & f2 & Hf2 & -> & _).
  apply (accepted_stored self f1 s1 s2 r1 r2 t1) in Ha2; auto.
  exists (stored self f2 s2 r2 t2). split.
  - apply set_preprocess_result_Ok. split; [done|]. by exists f2.
  - apply set_preprocess_result_Ok. split.
    + by apply (accepted_stored self f2 s2 s1 r2 r1 t2); auto.
    + exists f1. repeat split; [done|].
      assert (PreProcessSteps.name s1 <> PreProcessSteps.name s2)
        by (by intros ?%name_inj).
      unfold stored, set_preprocess_metadata.
      destruct s1, s2; simpl in *; try congruence;
        injection Hf1 as <-; injection Hf2 as <-; simpl;
        f_equal; by apply insert_insert_ne.
Qed.

Lemma set_preprocess_result_commutes_witness :
  exists self2,
    set_preprocess_result (Step PreProcessSteps.tagging)
      (PyStr <$> ["a"; "b"; "c"; "d"; "e"; "f"; "g"; "h"; "i"; "j"]) 8
      sample_document = (self2, Ok self2) /\
    sentences
      (fst (set_preprocess_result (Step PreProcessSteps.segmentation)
              (PyInt <$> [0; 4; 10]) 7 self2)) = PyInt <$> [0; 4; 10].
Proof.
  set (tags := PyStr <$> ["a"; "b"; "c"; "d"; "e"; "f"; "g"; "h"; "i"; "j"]).
  set (d1 := stored sample_document sentences_field
               PreProcessSteps.segmentation (PyInt <$> [0; 4; 10]) 7).
  set (d12 := stored d1 postags_field PreProcessSteps.tagging tags 8).
  destruct (set_preprocess_result_commutes sample_document d1 d1 d12 d12
              PreProcessSteps.segmentation PreProcessSteps.tagging
              (PyInt <$> [0; 4; 10]) tags 7 8)
    as (self2 & E2 & E1); try discriminate; try (vm_compute; reflexivity).
  exists self2. split; [exact E2|]. by rewrite E1.
Defined.

(** X19: only tokenization changes the tokens, and every other call keeps
    the two invariants tied to them: if the document has one tag per token
    before a call that is not for tokenization, it has after it; if its
    sentence boundaries obey the four rules before, they do after. This
    holds whether the call succeeds or raises. *)
Theorem set_preprocess_result_keeps_invariants (self self' : IEDocument.t)
    (step : pyobj) (out : result IEDocument.t) (result : list pyval)
    (now : datetime) :
  step <> Step PreProcessSteps.tokenization ->
  set_preprocess_result step result now self = (self', out) ->
  tokens self' = tokens self /\
  (length (postags self) = length (tokens self) ->
   length (postags self') = length (tokens self')) /\
  (valid_segmentation (length (tokens self)) (sentences self) ->
   valid_segmentation (length (tokens self')) (sentences self')).
Proof.
  intros Hstep E. pose proof E as E'.
  apply set_preprocess_result_outcome in E'
    as [(-> & _)|(s & f & -> & Hf & -> & ->)]; [done|].
  apply set_preprocess_result_Ok in E as (Ha & _).
  destruct s; simpl in *; try congruence; injection Hf as <-; simpl;
    auto.
Qed.

Lemma set_preprocess_result_keeps_invariants_witness :
  length (postags (fst (set_preprocess_result
                          (Step PreProcessSteps.segmentation)
                          (PyInt <$> [0; 4; 10]) 7 sample_document)))
  = length (tokens (fst (set_preprocess_result
                           (Step PreProcessSteps.segmentation)
                           (PyInt <$> [0; 4; 10]) 7 sample_document))).
Proof.
  apply (set_preprocess_result_keeps_invariants sample_document _
           (Step PreProcessSteps.segmentation)
           (snd (set_preprocess_result (Step PreProcessSteps.segmentation)
                   (PyInt <$> [0; 4; 10]) 7 sample_document))
           (PyInt <$> [0; 4; 10]) 7);
    [discriminate|vm_compute; reflexivity|reflexivity].
Defined.

(** X20: [get_preprocess_result] raises for one combination only: the
    step is [nerc] and the name "nerc" is in the completion mapping; the
    exception is then the [KeyError] of the lookup of the field. *)
Theorem get_preprocess_result_raises (self : IEDocument.t)
    (step : PreProcessSteps.t) (e : exn) :
  get_preprocess_result self step = Raise e <->
  step = PreProcessSteps.nerc /\
  "nerc" ∈ dom (preprocess_metadata self) /\ e = KeyError.
Proof.
  unfold get_preprocess_result, was_preprocess_done, mapping_getitem.
  split.
  - case_bool_decide as Hd; simpl; [|done].
    destruct step; simpl; try done. by intros [= <-].
  - intros (-> & Hd & ->). simpl. by rewrite bool_decide_eq_true_2.
Qed.

Lemma get_preprocess_result_raises_witness :
  get_preprocess_result sample_document_nerc_marked PreProcessSteps.nerc
    = Raise KeyError.
Proof.
  apply (get_preprocess_result_raises sample_document_nerc_marked
           PreProcessSteps.nerc KeyError).
  repeat split.
Defined.
